(** * Melo: the melody pipeline of the hum-to-melody backend

    A shallow embedding of the pure core of [src/backend]:
    - [music_theory.py]    : the scale catalogue and [quantize_to_scale];
    - [rhythm_processor.py]: [quantize_rhythm], [get_groove_pattern],
                             [detect_tempo];
    - [melody_enhancer.py] : [smooth_melody], [afro_vibe_melody],
                             [extend_melody_duration];
    - [melody_generator.py]: [notes_to_midi], [notes_to_wav].

    Conventions of the embedding.
    - A Python [int] is a [Z]; [//] and [%] are [Z.div] and [Z.modulo]
      (both floor, like Python's).
    - A Python [float] is an exact rational [Q]: the arithmetic of the model
      is the arithmetic of the real numbers, rounding of binary floating
      point is not modelled.  Concrete inputs used below are dyadic or small
      decimal values on which both agree.
    - A note dictionary [{"midi", "start", "end"}] is the record [note].
    - Dictionaries keyed by name ([SCALES], the groove table, the grid table,
      the output file system) are [gmap string _].
    - The process-wide random generator of numpy is an explicit state that is
      threaded through the functions drawing from it. *)

From Stdlib Require Import ZArith QArith Qround Qabs Qminmax Sorted Lia Lqa.
From stdpp Require Import gmap strings list.

Open Scope Z_scope.

(** ** Python and numpy primitives *)

Module Py.

(** [a < b] on floats, as a boolean. *)
Definition Qltb (a b : Q) : bool := negb (Qle_bool b a).

(** [int(x)] on a float: truncation toward zero. *)
Definition int (x : Q) : Z :=
  if Qle_bool 0 x then Qfloor x else Qceiling x.

(** [round(x)] on a float: the nearest integer, ties going to the even one. *)
Definition round (x : Q) : Z :=
  let f := Qfloor x in
  match ((x - inject_Z f) ?= (1 # 2))%Q with
  | Lt => f
  | Gt => f + 1
  | Eq => if Z.even f then f else f + 1
  end.

(** [min(l, key=k)]: the first element of [l] whose key is minimal;
    [None] stands for the [ValueError] raised on an empty sequence. *)
Definition min_by {A} (k : A -> Z) (l : list A) : option A :=
  match l with
  | [] => None
  | x :: xs => Some (fold_left (fun best d => if k d <? k best then d else best) xs x)
  end.

(** [l.index(x)] for a list of strings; [None] stands for [ValueError]. *)
Fixpoint index (x : string) (l : list string) : option nat :=
  match l with
  | [] => None
  | y :: ys => if String.eqb y x then Some O else option_map S (index x ys)
  end.

(** [max(f(n) for n in l)] over a non-empty list of rationals. *)
Definition max_of (x : Q) (xs : list Q) : Q :=
  fold_left (fun best y => if Qltb best y then y else best) xs x.

(** [np.diff(a)]: the differences of consecutive elements. *)
Fixpoint np_diff (a : list Q) : list Q :=
  match a with
  | x :: (y :: _) as tl => (y - x)%Q :: np_diff tl
  | _ => []
  end.

(** [np.argmax(h)]: the index of the first maximal element. *)
Fixpoint argmax_from (h : list Z) (i best_i : nat) (best : Z) : nat :=
  match h with
  | [] => best_i
  | x :: xs => if best <? x then argmax_from xs (S i) i x
               else argmax_from xs (S i) best_i best
  end.

Definition np_argmax (h : list Z) : nat :=
  match h with
  | [] => O
  | x :: xs => argmax_from xs 1 0 x
  end.

(** [np.histogram(a, bins=n)] for a non-empty [a]: [n] bins of equal width
    between the minimum and the maximum of [a] (the range is widened by 0.5
    on each side when the two are equal); every bin is closed on the left and
    open on the right, the last one is closed on both sides.  Returns the
    counts and the [n + 1] bin edges. *)
Definition histogram_range (x : Q) (xs : list Q) : Q * Q :=
  let lo := fold_left (fun best y => if Qltb y best then y else best) xs x in
  let hi := max_of x xs in
  if Qeq_bool lo hi then (lo - 0.5, hi + 0.5)%Q else (lo, hi).

Definition histogram_bin (lo hi : Q) (n : nat) (v : Q) : nat :=
  let f := int ((v - lo) / (hi - lo) * inject_Z (Z.of_nat n))%Q in
  if f =? Z.of_nat n then (n - 1)%nat else Z.to_nat f.

Definition np_histogram (a : list Q) (n : nat) : list Z * list Q :=
  match a with
  | [] => ([], [])
  | x :: xs =>
      let '(lo, hi) := histogram_range x xs in
      let idx := map (histogram_bin lo hi n) a in
      let hist :=
        map (fun i => Z.of_nat (length (filter (Nat.eqb i) idx))) (seq 0 n) in
      let edges :=
        map (fun i => lo + inject_Z (Z.of_nat i) * ((hi - lo) / inject_Z (Z.of_nat n)))%Q
            (seq 0 (S n)) in
      (hist, edges)
  end.

End Py.

(** Exceptions raised by the modelled code, and results of fallible calls. *)
Inductive exn :=
| ValueError (msg : string)
| ZeroDivisionError
| WaveError (msg : string).

Inductive result (A : Type) :=
| Ok (a : A)
| Raise (e : exn).
Arguments Ok {A} a.
Arguments Raise {A} e.

(** The random generator of numpy, as an interface over an explicit state:
    [np.random.random()], [np.random.uniform(lo, hi)] and
    [np.random.choice(l)]. *)
Class RandomState (G : Type) := {
  random : G -> Q * G;
  uniform : Q -> Q -> G -> Q * G;
  choice : list Z -> G -> Z * G
}.

(** ** The note record shared by every stage *)

Record note := Note { midi : Z; start : Q; end_ : Q }.

(** [sorted(l, key=lambda n: n["start"])] and [l.sort(key=...)]: a stable
    sort, equal keys keep their relative order.  A note is inserted in the
    sorted rest of the list before the first note that does not start
    earlier. *)
Fixpoint insert_by_start (n : note) (l : list note) : list note :=
  match l with
  | [] => [n]
  | m :: ms =>
      if Py.Qltb (start m) (start n) then m :: insert_by_start n ms
      else n :: m :: ms
  end.

Definition sort_by_start (l : list note) : list note :=
  foldr insert_by_start [] l.

(** ** music_theory.py *)

Module MusicTheory.

Definition SCALES : gmap string (list Z) :=
  list_to_map
    [ ("major", [0; 2; 4; 5; 7; 9; 11]);
      ("minor", [0; 2; 3; 5; 7; 8; 10]);
      ("harmonic_minor", [0; 2; 3; 5; 7; 8; 11]);
      ("melodic_minor", [0; 2; 3; 5; 7; 9; 11]);
      ("dorian", [0; 2; 3; 5; 7; 9; 10]);
      ("phrygian", [0; 1; 3; 5; 7; 8; 10]);
      ("lydian", [0; 2; 4; 6; 7; 9; 11]);
      ("mixolydian", [0; 2; 4; 5; 7; 9; 10]);
      ("locrian", [0; 1; 3; 5; 6; 8; 10]);
      ("major_pentatonic", [0; 2; 4; 7; 9]);
      ("minor_pentatonic", [0; 3; 5; 7; 10]);
      ("blues", [0; 3; 5; 6; 7; 10]);
      ("major_blues", [0; 2; 3; 4; 7; 9]);
      ("afrobeat", [0; 2; 3; 5; 7; 9; 10]);
      ("afro_pentatonic", [0; 2; 5; 7; 10]);
      ("trap", [0; 2; 3; 5; 7; 8; 11]);
      ("trap_pentatonic", [0; 3; 5; 7; 10]);
      ("arabic", [0; 1; 4; 5; 7; 8; 11]);
      ("japanese", [0; 1; 5; 7; 8]);
      ("hungarian_minor", [0; 2; 3; 6; 7; 8; 11]);
      ("spanish", [0; 1; 4; 5; 7; 8; 10]) ].

Definition NOTE_NAMES : list string :=
  ["C"; "C#"; "D"; "D#"; "E"; "F"; "F#"; "G"; "G#"; "A"; "A#"; "B"].

(** Lines 119-121: the root's pitch-class number, an unknown name being
    replaced by ["C"]. *)
Definition root_offset (root : string) : Z :=
  match Py.index root NOTE_NAMES with
  | Some i => Z.of_nat i
  | None => default 0 (Z.of_nat <$> Py.index "C" NOTE_NAMES)
  end.

(** Lines 124-126: the scale's interval list, an unknown name being replaced
    by ["minor"]. *)
Definition target_scale (scale : string) : list Z :=
  match SCALES !! scale with
  | Some intervals => intervals
  | None => default [] (SCALES !! "minor")
  end.

Definition quantize_to_scale (midi_note : Z) (root scale : string) : Z :=
  let root_num := root_offset root in
  let scale_intervals := target_scale scale in
  let octave := midi_note / 12 in
  let pitch_class := midi_note mod 12 in
  let relative_pitch := (pitch_class - root_num) mod 12 in
  (* [min] raises on an empty list only; no catalogue scale is empty
     (lemma [target_scale_inv]), so the default is never taken *)
  let closest :=
    default 0 (Py.min_by (fun d => Z.abs (d - relative_pitch)) scale_intervals) in
  let quantized_pitch := (root_num + closest) mod 12 in
  octave * 12 + quantized_pitch.

End MusicTheory.

(** ** Binary floating point *)

(** The functions whose stated properties depend on how a result is rounded
    compute with the operations of this module.  A float is the rational
    number it denotes; there are no infinities and no NaN, so a computation
    that overflows binary64 is outside the model. *)
Module Float.

(** [2 ** e] for an integer [e] of either sign. *)
Definition pow2 (e : Z) : Q :=
  if 0 <=? e then (2 ^ e) # 1 else 1 # Z.to_pos (2 ^ (- e)).

(** [floor(log2(x))] for a positive [x]. *)
Definition ilog2 (x : Q) : Z :=
  let k := Z.log2 (Qnum x) - Z.log2 (Zpos (Qden x)) in
  if Qle_bool (pow2 k) x then k else k - 1.

(** The exponent of the unit in the last place of [x], then rounding to
    the nearest number [m * 2 ** e] with [|m| <= 2 ** prec] and
    [e >= emin], ties going to the even [m]: the significand has [prec]
    bits, and below [2 ** (emin + prec - 1)] the numbers are subnormal.  The
    result is a reduced fraction, so that equal floats are equal terms. *)
Definition uexp (prec emin : Z) (x : Q) : Z :=
  Z.max emin (ilog2 (Qabs x) - (prec - 1)).

Definition round_to (prec emin : Z) (x : Q) : Q :=
  let e := uexp prec emin x in
  Qred (inject_Z (Py.round (x / pow2 e)) * pow2 e).

(** binary64, the Python [float], and binary32, numpy's [float32]. *)
Definition rnd : Q -> Q := round_to 53 (-1074).

Definition rnd32 : Q -> Q := round_to 24 (-149).

(** A decimal literal of the source denotes the nearest binary64 number. *)
Definition lit (q : Q) : Q := rnd q.

(** The four operations, correctly rounded; [fdiv] is used where the
    divisor has been checked not to be zero. *)
Definition fadd (a b : Q) : Q := rnd (a + b).

Definition fsub (a b : Q) : Q := rnd (a - b).

Definition fmul (a b : Q) : Q := rnd (a * b).

Definition fdiv (a b : Q) : Q := rnd (a / b).

(** The conversion of an [int] that meets a float in an operation. *)
Definition of_int (z : Z) : Q := rnd (inject_Z z).

(** The rationals that are binary64 numbers. *)
Definition representable (x : Q) : Prop := (rnd x == x)%Q.

End Float.

(** ** rhythm_processor.py *)

Module Rhythm.





Section Quantize.
Context {G : Type} {rs : RandomState G}.





End Quantize.

Definition detect_tempo (notes : list note) : Q :=
  if (length notes <? 4)%nat then 120.0%Q
  else
    let onsets := map start notes in
    let intervals := Py.np_diff onsets in
    let intervals :=
      filter (fun x => Py.Qltb 0.1 x && Py.Qltb x 2.0) intervals in
    if (length intervals =? 0)%nat then 120.0%Q
    else
      let '(hist, bins) := Py.np_histogram intervals 20 in
      let most_common_interval := default 0%Q (bins !! Py.np_argmax hist) in
      let bpm_quarter := (60.0 / most_common_interval)%Q in
      let bpm_eighth := (60.0 / (most_common_interval * 2))%Q in
      if Qle_bool 60 bpm_quarter && Qle_bool bpm_quarter 180
      then inject_Z (Py.round bpm_quarter)
      else if Qle_bool 60 bpm_eighth && Qle_bool bpm_eighth 180
      then inject_Z (Py.round bpm_eighth)
      else if Py.Qltb bpm_quarter 60
      then inject_Z (Py.round (bpm_quarter * 2))
      else if Py.Qltb 180 bpm_quarter
      then inject_Z (Py.round (bpm_quarter / 2))
      else 120.0%Q.

End Rhythm.

(** ** melody_enhancer.py *)

Module Enhancer.
Import MusicTheory.

(** The loop of [smooth_melody] (lines 67-85); [prev_midi] is the pitch of
    the note appended last, [smoothed[-1]["midi"]]. *)
Fixpoint smooth_from (prev_midi : Z) (rest : list note) (intensity : Q)
    (root scale : string) : list note :=
  match rest with
  | [] => []
  | n :: ns =>
      let curr_midi := midi n in
      let interval := curr_midi - prev_midi in
      let new_midi :=
        if 5 <? Z.abs interval then
          let target_midi := prev_midi + Z.sgn interval * Z.min (Z.abs interval) 3 in
          let new_midi :=
            Py.int (inject_Z curr_midi * (1 - intensity)
                    + inject_Z target_midi * intensity)%Q in
          quantize_to_scale new_midi root scale
        else curr_midi in
      Note new_midi (start n) (end_ n)
        :: smooth_from new_midi ns intensity root scale
  end.

Definition smooth_melody (notes : list note) (intensity : Q)
    (root scale : string) : list note :=
  if (length notes <? 2)%nat then notes
  else
    match notes with
    | [] => []
    | first :: rest => first :: smooth_from (midi first) rest intensity root scale
    end.

Section Stochastic.
Context {G : Type} {rs : RandomState G}.

(** Lines 224-239 of [afro_vibe_melody]: what is appended for the note [n]
    of index [i], [new_note] being its possibly shifted copy and [rest] the
    notes after it: the copy alone, or the copy and a short repeat of the
    note in the gap before the next one. *)
Definition afro_emit (new_note n : note) (rest : list note) (intensity : Q)
    (g : G) : list note * G :=
  match rest with
  | next :: _ =>
      if Py.Qltb 0.6 intensity then
        let gap := (start next - end_ n)%Q in
        if Py.Qltb 0.2 gap then
          let '(r, g') := random g in
          if Py.Qltb r 0.3 then
            let repeat_duration := Qmin 0.1 (gap * 0.4) in
            let repeat_note :=
              Note (midi n) (end_ n + gap * 0.3)
                   (end_ n + gap * 0.3 + repeat_duration) in
            ([new_note; repeat_note], g')
          else ([new_note], g')
        else ([new_note], g)
      else ([new_note], g)
  | [] => ([new_note], g)
  end.

(** The loop of [afro_vibe_melody] (lines 210-239) from index [i] on;
    [notes] is the part of the input that starts at index [i], so that
    [i < len(notes) - 1] holds exactly when a next note exists. *)
Fixpoint afro_loop (i : nat) (notes : list note) (intensity : Q) (g : G)
  : list note * G :=
  match notes with
  | [] => ([], g)
  | n :: rest =>
      let new_note :=
        if (i mod 2 =? 1)%nat && Py.Qltb 0.3 intensity then
          let beat_duration := 0.5%Q in
          let grid_size := (beat_duration / 4)%Q in
          let offset := (grid_size * 0.3 * intensity)%Q in
          Note (midi n) (start n + offset) (end_ n + offset)
        else n in
      let '(emitted, g) := afro_emit new_note n rest intensity g in
      let '(others, g) := afro_loop (S i) rest intensity g in
      (emitted ++ others, g)
  end.

Definition afro_vibe_melody (notes : list note) (intensity : Q)
    (root scale : string) (g : G) : list note * G :=
  let '(afro_notes, g) := afro_loop 0 notes intensity g in
  (sort_by_start afro_notes, g).

(** One pass of the [for] loop of lines 439-450: a copy of every note moved
    by [offset], its pitch varied with probability 0.2. *)
Fixpoint vary_notes (notes : list note) (offset : Q) (g : G) : list note * G :=
  match notes with
  | [] => ([], g)
  | n :: ns =>
      let '(r, g) := random g in
      let '(new_midi, g) :=
        if Py.Qltb r 0.2 then
          let '(variation, g') := choice [12; -12; 7; -7; 0] g in
          (Z.max 36 (Z.min 96 (midi n + variation)), g')
        else (midi n, g) in
      let '(rest, g) := vary_notes ns offset g in
      (Note new_midi (start n + offset) (end_ n + offset) :: rest, g)
  end.

(** The [while] loop of lines 437-452; [None] when the fuel runs out. *)
Fixpoint extend_loop (fuel : nat) (notes : list note)
    (current_duration min_duration : Q) (offset : Q) (extended : list note)
    (g : G) : option (list note * G) :=
  if Py.Qltb offset min_duration then
    match fuel with
    | O => None
    | S fuel' =>
        let '(copies, g) := vary_notes notes offset g in
        extend_loop fuel' notes current_duration min_duration
                    (offset + current_duration) (extended ++ copies) g
    end
  else Some (extended, g).

Definition extend_melody_duration (fuel : nat) (notes : list note)
    (min_duration : Q) (g : G) : option (list note * G) :=
  match notes with
  | [] => Some ([], g)
  | n :: ns =>
      let current_duration := Py.max_of (end_ n) (map end_ ns) in
      if Qle_bool min_duration current_duration then Some (notes, g)
      else
        match extend_loop fuel notes current_duration min_duration
                          current_duration notes g with
        | None => None
        | Some (extended, g) =>
            let extended :=
              filter (fun n => Py.Qltb (start n) min_duration) extended in
            Some (sort_by_start extended, g)
        end
  end.

End Stochastic.

End Enhancer.

(** ** melody_generator.py *)

Module Generator.

(** *** The symbolic (MIDI) renderer *)

(** The messages of a mido track; [time] is the delta in ticks since the
    previous message. *)
Inductive message :=
| set_tempo (tempo : Z) (time : Z)
| note_on (note velocity : Z) (time : Z)
| note_off (note velocity : Z) (time : Z).

Definition time (m : message) : Z :=
  match m with
  | set_tempo _ t => t
  | note_on _ _ t => t
  | note_off _ _ t => t
  end.

(** Files left on disk by the two renderers.  A WAV file holds its header
    fields and its frames, one signed 16-bit sample per frame;
    [EmptyFile] is a file that was opened for writing and never filled. *)
Inductive file :=
| MidiFile (ticks_per_beat : Z) (track : list message)
| WavFile (nchannels sampwidth framerate : Z) (frames : list Z)
| EmptyFile.

Definition filesystem := gmap string file.

(** mido's defaults and checks: 480 ticks per beat; a data byte (a pitch)
    lies in 0..127 and a tempo in 0..0xffffff, a [ValueError] otherwise. *)
Definition DEFAULT_TICKS_PER_BEAT : Z := 480.

Definition check_data_byte (v : Z) : bool := (0 <=? v) && (v <=? 127).

Definition check_tempo (v : Z) : bool := (0 <=? v) && (v <=? 16777215).

(** [mido.bpm2tempo(bpm)]: microseconds per beat; [bpm] is not zero here. *)
Definition bpm2tempo (bpm : Q) : Z := Py.round (60 * 1000000 / bpm)%Q.

(** The loop of lines 83-96 over the sorted notes. *)
Fixpoint note_events (notes_sorted : list note) (ticks_per_second : Q)
    (last_tick : Z) : result (list message) :=
  match notes_sorted with
  | [] => Ok []
  | n :: ns =>
      let start_sec := start n in
      let end_sec := end_ n in
      let start_tick := Py.round (start_sec * ticks_per_second) in
      let end_tick := Py.round (end_sec * ticks_per_second) in
      let dur_ticks := Z.max 1 (end_tick - start_tick) in
      let delta := Z.max 0 (start_tick - last_tick) in
      if check_data_byte (midi n) then
        match note_events ns ticks_per_second (start_tick + dur_ticks) with
        | Ok evs =>
            Ok (note_on (midi n) 90 delta :: note_off (midi n) 0 dur_ticks :: evs)
        | Raise e => Raise e
        end
      else Raise (ValueError "data byte must be in range 0..127")
  end.

(** The track built by [notes_to_midi] (lines 68-96). *)
Definition midi_track (notes : list note) (tempo_bpm : Q)
  : result (list message) :=
  if Qeq_bool tempo_bpm 0 then Raise ZeroDivisionError
  else
    let tempo := bpm2tempo tempo_bpm in
    if check_tempo tempo then
      let ticks_per_beat := DEFAULT_TICKS_PER_BEAT in
      let seconds_per_beat := (60.0 / tempo_bpm)%Q in
      let ticks_per_second := (inject_Z ticks_per_beat / seconds_per_beat)%Q in
      let notes_sorted := sort_by_start notes in
      match note_events notes_sorted ticks_per_second 0 with
      | Ok evs => Ok (set_tempo tempo 0 :: evs)
      | Raise e => Raise e
      end
    else Raise (ValueError "tempo must be in range 0..16777215").

Definition notes_to_midi (notes : list note) (out_path : string)
    (tempo_bpm : Q) (fs : filesystem) : result unit * filesystem :=
  match midi_track notes tempo_bpm with
  | Ok track => (Ok tt, <[out_path := MidiFile DEFAULT_TICKS_PER_BEAT track]> fs)
  | Raise e => (Raise e, fs)
  end.

(** The tick at which each message of a track sounds: the running sum of
    the deltas. *)
Fixpoint tick_positions (now : Z) (track : list message) : list Z :=
  match track with
  | [] => []
  | m :: ms => (now + time m) :: tick_positions (now + time m) ms
  end.

(** *** The audio (WAV) renderer *)

Record instrument_config := {
  harmonics : list (Q * Q);
  attack : Q;
  decay : Q;
  sustain : Q;
  release : Q;
  brightness : Q
}.

Definition INSTRUMENTS : gmap string instrument_config :=
  list_to_map
    [ ("piano",
       {| harmonics := [(1.0, 1.0); (2.0, 0.4); (3.0, 0.2); (4.0, 0.15); (5.0, 0.1)];
          attack := 0.01; decay := 0.05; sustain := 0.7; release := 0.15;
          brightness := 1.2 |});
      ("guitar",
       {| harmonics := [(1.0, 1.0); (2.0, 0.6); (3.0, 0.4); (4.0, 0.25); (5.0, 0.15);
                        (6.0, 0.1)];
          attack := 0.005; decay := 0.1; sustain := 0.6; release := 0.2;
          brightness := 1.5 |});
      ("strings",
       {| harmonics := [(1.0, 1.0); (2.0, 0.5); (3.0, 0.35); (4.0, 0.25); (5.0, 0.2);
                        (6.0, 0.15)];
          attack := 0.15; decay := 0.1; sustain := 0.85; release := 0.3;
          brightness := 0.9 |});
      ("bells",
       {| harmonics := [(1.0, 1.0); (2.7, 0.7); (4.1, 0.5); (5.8, 0.3); (7.2, 0.2)];
          attack := 0.001; decay := 0.3; sustain := 0.3; release := 0.8;
          brightness := 2.0 |});
      ("synth",
       {| harmonics := [(1.0, 1.0); (2.0, 0.8); (3.0, 0.6); (4.0, 0.4); (5.0, 0.2)];
          attack := 0.02; decay := 0.05; sustain := 0.8; release := 0.1;
          brightness := 1.8 |});
      ("pads",
       {| harmonics := [(1.0, 1.0); (2.0, 0.7); (3.0, 0.5); (4.0, 0.4); (5.0, 0.3);
                        (6.0, 0.2)];
          attack := 0.3; decay := 0.2; sustain := 0.9; release := 0.5;
          brightness := 0.7 |}) ]%Q.

(** The bounds of the numpy slice [a[lo:hi]] of an array of [n] elements:
    a negative index counts from the end, then both are clipped to the
    array. *)
Definition clip_index (n i : Z) : Z :=
  let i := if i <? 0 then i + n else i in
  Z.max 0 (Z.min n i).

(** [audio[lo:hi] += vals]: element by element when the lengths agree, the
    single value spread over the slice when [vals] has one element, a
    [ValueError] (shapes that cannot be broadcast) otherwise. *)
Definition iadd_slice (audio : list Q) (lo hi : Z) (vals : list Q)
  : result (list Q) :=
  let n := Z.of_nat (length audio) in
  let a := Z.to_nat (clip_index n lo) in
  let b := Z.to_nat (clip_index n hi) in
  let k := (b - a)%nat in
  let target := take k (drop a audio) in
  if (length vals =? k)%nat then
    Ok (take a audio ++ zip_with Qplus target vals ++ drop (a + k) audio)
  else
    match vals with
    | [v] => Ok (take a audio ++ map (fun x => x + v)%Q target ++ drop (a + k) audio)
    | _ => Raise (ValueError "operands could not be broadcast together")
    end.

(** [x.astype(np.int16)] for one sample: truncation toward zero, kept on 16
    bits in two's complement. *)
Definition to_int16 (x : Q) : Z :=
  (Py.int x + 32768) mod 65536 - 32768.

Section Render.
Context {G : Type}.

(** [midi_to_freq] is [440 * 2 ** ((m - 69) / 12)], which is not rational
    for most pitches: the float it returns is a parameter. *)
Variable midi_to_freq : Z -> Q.

(** The waveform of [generate_instrument_tone] (the sum of the detuned sine
    partials, the envelope and the brightness factor) is a parameter:
    [synthesize cfg freq duration sr g i] is sample [i] of the tone, and
    [after_synthesis cfg g] the generator once the detunes are drawn. *)
Variable synthesize : instrument_config -> Q -> Q -> Z -> G -> nat -> Q.
Variable after_synthesis : instrument_config -> G -> G.

Definition generate_instrument_tone (freq duration : Q) (sr : Z)
    (instrument : string) (g : G) : result (list Q) * G :=
  let instrument_config :=
    default (default (Build_instrument_config [] 0 0 0 0 0)
                     (INSTRUMENTS !! "piano"))
            (INSTRUMENTS !! instrument) in
  let n_samples := Py.int (duration * inject_Z sr) in
  if n_samples <? 0 then
    (Raise (ValueError "Number of samples must be non-negative"), g)
  else
    (Ok (map (synthesize instrument_config freq duration sr g)
             (seq 0 (Z.to_nat n_samples))),
     after_synthesis instrument_config g).

(** The mixing loop of lines 219-234. *)
Fixpoint mix_notes (notes : list note) (sr : Z) (instrument : string)
    (audio : list Q) (g : G) : result (list Q) * G :=
  match notes with
  | [] => (Ok audio, g)
  | n :: ns =>
      let start_sample := Py.int (inject_Z sr * start n) in
      let end_sample := Py.int (inject_Z sr * end_ n) in
      let end_sample := Z.max end_sample (start_sample + 1) in
      if sr =? 0 then (Raise ZeroDivisionError, g)
      else
        let duration := (inject_Z (end_sample - start_sample) / inject_Z sr)%Q in
        let freq := midi_to_freq (midi n) in
        match generate_instrument_tone freq duration sr instrument g with
        | (Raise e, g) => (Raise e, g)
        | (Ok tone, g) =>
            let tone := take (Z.to_nat (end_sample - start_sample)) tone in
            match iadd_slice audio start_sample
                    (start_sample + Z.of_nat (length tone))
                    (map (fun x => x * 0.5)%Q tone) with
            | Raise e => (Raise e, g)
            | Ok audio => mix_notes ns sr instrument audio g
            end
        end
  end.

(** Lines 237-241: the peak is brought to 0.85, then 16-bit samples. *)
Definition normalize (max_val : Q) (audio : list Q) : list Q :=
  if Py.Qltb 0 max_val then map (fun x => x / max_val * 0.85)%Q audio
  else audio.

Definition notes_to_wav (notes : list note) (out_path : string) (sr : Z)
    (instrument : string) (g : G) (fs : filesystem)
  : result unit * G * filesystem :=
  match notes with
  | [] => (Raise (ValueError "No notes to render"), g, fs)
  | n :: ns =>
      let max_time := Py.max_of (end_ n) (map end_ ns) in
      let total_samples := Py.int (inject_Z sr * (max_time + 0.5)) in
      if total_samples <? 0 then
        (Raise (ValueError "negative dimensions are not allowed"), g, fs)
      else
        let audio := replicate (Z.to_nat total_samples) 0%Q in
        match mix_notes notes sr instrument audio g with
        | (Raise e, g) => (Raise e, g, fs)
        | (Ok audio, g) =>
            match map Qabs audio with
            | [] =>
                (Raise (ValueError "zero-size array to reduction operation maximum"),
                 g, fs)
            | a :: rest =>
                let max_val := Py.max_of a rest in
                let audio := normalize max_val audio in
                let audio_int16 := map (fun x => to_int16 (x * 32767)) audio in
                if sr <=? 0 then
                  (* [wave.open] has created the file when [setframerate]
                     rejects the rate *)
                  (Raise (WaveError "bad frame rate"), g,
                   <[out_path := EmptyFile]> fs)
                else
                  (Ok tt, g, <[out_path := WavFile 1 2 sr audio_int16]> fs)
            end
        end
  end.

End Render.

End Generator.

(** ** music_theory.py: key detection, transposition and the catalogue *)

Module Keys.
Import MusicTheory.

(** [sub in s] on strings: [sub] occurs in [s]. *)
Fixpoint contains (sub s : string) : bool :=
  String.prefix sub s
  || match s with
     | EmptyString => false
     | String _ rest => contains sub rest
     end.

(** A [Counter] of float weights keyed by pitch class, in insertion order;
    [c[key] += w] starts a missing key at 0. *)
Fixpoint counter_add (c : list (Z * Q)) (key : Z) (w : Q) : list (Z * Q) :=
  match c with
  | [] => [(key, 0 + w)%Q]
  | (k, v) :: rest =>
      if k =? key then (k, (v + w)%Q) :: rest
      else (k, v) :: counter_add rest key w
  end.

(** Lines 64-69: the summed duration of the notes of each pitch class. *)
Definition pitch_class_weights (notes : list note) : list (Z * Q) :=
  fold_left
    (fun c note =>
       let duration := (end_ note - start note)%Q in
       let pitch_class := midi note mod 12 in
       counter_add c pitch_class duration)
    notes [].

Definition scales_to_try : list string :=
  ["major"; "minor"; "harmonic_minor"; "minor_pentatonic";
   "major_pentatonic"; "dorian"; "phrygian"].

(** Lines 83-97: how well the weighted pitch classes fit the scale on
    [root]: the weight inside the scale minus half the weight outside,
    divided by the total weight when that is positive. *)
Definition key_score (weights : list (Z * Q)) (root : Z) (scale : list Z) : Q :=
  let total_weight := fold_left Qplus (map snd weights) 0%Q in
  let score :=
    fold_left
      (fun score '(pitch_class, weight) =>
         let relative_pitch := (pitch_class - root) mod 12 in
         if existsb (Z.eqb relative_pitch) scale then (score + weight)%Q
         else (score - weight * 0.5)%Q)
      weights 0%Q in
  if Py.Qltb 0 total_weight then (score / total_weight)%Q else score.

(** The test and update of lines 99-101 for one candidate. *)
Definition try_key (weights : list (Z * Q)) (root : nat) (scale_name : string)
    (best : Q * (string * string)) : Q * (string * string) :=
  let scale := default [] (SCALES !! scale_name) in
  let score := key_score weights (Z.of_nat root) scale in
  if Py.Qltb (fst best) score
  then (score, (default "" (NOTE_NAMES !! root), scale_name))
  else best.

Definition detect_key (notes : list note) : string * string :=
  match notes with
  | [] => ("C", "minor")
  | _ =>
      let weights := pitch_class_weights notes in
      snd (fold_left
             (fun best root =>
                fold_left (fun best scale_name => try_key weights root scale_name best)
                          scales_to_try best)
             (seq 0 12) ((-1)%Q, ("C", "minor")))
  end.

Definition transpose_notes (notes : list note) (semitones : Z) : list note :=
  map (fun note => Note (Z.max 0 (Z.min 127 (midi note + semitones)))
                        (start note) (end_ note))
      notes.

Record scale_info := {
  name : string;
  intervals : list Z;
  num_notes : nat;
  category : string
}.

Definition get_scale_info (scale_name : string) : scale_info :=
  let scale_name :=
    match SCALES !! scale_name with Some _ => scale_name | None => "minor" end in
  let intervals := default [] (SCALES !! scale_name) in
  let category :=
    if contains "minor" scale_name
       || existsb (String.eqb scale_name) ["dorian"; "phrygian"; "locrian"]
    then "minor"
    else if contains "major" scale_name
            || existsb (String.eqb scale_name) ["lydian"; "mixolydian"]
    then "major"
    else if contains "pentatonic" scale_name then "pentatonic"
    else if contains "afro" scale_name then "afrobeat"
    else if contains "trap" scale_name || contains "blues" scale_name then "urban"
    else "other" in
  {| name := scale_name; intervals := intervals;
     num_notes := length intervals; category := category |}.

(** The display groups, in the order of the source. *)
Definition get_scales_by_category : list (string * list string) :=
  [ ("Western", ["major"; "minor"; "harmonic_minor"; "melodic_minor"]);
    ("Modes", ["dorian"; "phrygian"; "lydian"; "mixolydian"; "locrian"]);
    ("Pentatonic", ["major_pentatonic"; "minor_pentatonic"]);
    ("Blues", ["blues"; "major_blues"]);
    ("Afrobeat", ["afrobeat"; "afro_pentatonic"]);
    ("Trap/Hip-hop", ["trap"; "trap_pentatonic"]);
    ("World", ["arabic"; "japanese"; "hungarian_minor"; "spanish"]) ].

End Keys.

(** ** melody_enhancer.py: the other enhancers, the dispatch and the
    ornaments *)

Module Styles.
Import MusicTheory Enhancer.

Definition bounce_melody (notes : list note) (intensity : Q)
    (root scale : string) : list note :=
  map (fun note =>
         let duration := (end_ note - start note)%Q in
         let staccato_duration := (duration * (1.0 - intensity * 0.7))%Q in
         let staccato_duration := Qmax 0.05 staccato_duration in
         Note (midi note) (start note) (start note + staccato_duration))
      notes.

(** The fill notes of lines 164-182 between [curr_note] and [next_note],
    [interval] apart, the gap between them being [gap_time]. *)
Definition fill_notes (curr_note next_note : note) (interval : Z) (gap_time : Q)
    (root scale : string) : list note :=
  let num_fill_notes := Z.min 3 (interval / 2) in
  let fill_duration := (gap_time / inject_Z (num_fill_notes + 1))%Q in
  let direction := if midi curr_note <? midi next_note then 1 else -1 in
  let step_size := interval / (num_fill_notes + 1) in
  map (fun j : nat =>
         let fill_midi := midi curr_note + direction * step_size * (Z.of_nat j + 1) in
         let fill_midi := quantize_to_scale fill_midi root scale in
         let fill_start := (end_ curr_note + fill_duration * inject_Z (Z.of_nat j))%Q in
         let fill_end := (fill_start + fill_duration * 0.7)%Q in
         Note fill_midi fill_start fill_end)
      (seq 0 (Z.to_nat num_fill_notes)).



Definition choir_harmony (notes : list note) (intensity : Q)
    (root scale : string) : list note :=
  let harmony_notes :=
    flat_map
      (fun note =>
         let third :=
           if Py.Qltb 0.3 intensity then
             let third_up :=
               if existsb (String.eqb scale)
                    ["major"; "major_pentatonic"; "lydian"; "mixolydian"]
               then midi note + 4 else midi note + 3 in
             let third_up := quantize_to_scale third_up root scale in
             let harmony_duration := ((end_ note - start note) * 0.8)%Q in
             [Note third_up (start note + 0.02) (start note + harmony_duration)]
           else [] in
         let fifth :=
           if Py.Qltb 0.6 intensity then
             let fifth_up := quantize_to_scale (midi note + 7) root scale in
             let harmony_duration := ((end_ note - start note) * 0.7)%Q in
             [Note fifth_up (start note + 0.04) (start note + harmony_duration)]
           else [] in
         let octave :=
           if Py.Qltb 0.8 intensity then
             let octave_up := Z.min 127 (midi note + 12) in
             let harmony_duration := ((end_ note - start note) * 0.9)%Q in
             [Note octave_up (start note + 0.01) (start note + harmony_duration)]
           else [] in
         note :: third ++ fifth ++ octave)
      notes in
  sort_by_start harmony_notes.

Section Stochastic.
Context {G : Type} {rs : RandomState G}.

(** Lines 155-182: the fill notes drawn between [curr_note] and
    [next_note]; a number is drawn only when the two are more than 3
    semitones apart. *)
Definition trap_fill (curr_note next_note : note) (intensity : Q)
    (root scale : string) (g : G) : list note * G :=
  let interval := Z.abs (midi next_note - midi curr_note) in
  if 3 <? interval then
    let '(r, g') := random g in
    if Py.Qltb r intensity then
      let gap_time := (start next_note - end_ curr_note)%Q in
      if Py.Qltb 0.15 gap_time
      then (fill_notes curr_note next_note interval gap_time root scale, g')
      else ([], g')
    else ([], g')
  else ([], g).

(** The loop of [trap_run_melody] (lines 149-185): every note but the last
    is followed by the fill notes drawn for it, then comes the last note. *)
Fixpoint trap_loop (notes : list note) (intensity : Q) (root scale : string)
    (g : G) : list note * G :=
  match notes with
  | [] => ([], g)
  | curr_note :: rest =>
      match rest with
      | [] => ([curr_note], g)
      | next_note :: _ =>
          let '(fills, g) := trap_fill curr_note next_note intensity root scale g in
          let '(others, g) := trap_loop rest intensity root scale g in
          (curr_note :: fills ++ others, g)
      end
  end.

Definition trap_run_melody (notes : list note) (intensity : Q)
    (root scale : string) (g : G) : list note * G :=
  if (length notes <? 2)%nat then (notes, g)
  else trap_loop notes intensity root scale g.

Definition enhance_melody (notes : list note) (mode : string) (intensity : Q)
    (root scale : string) (g : G) : list note * G :=
  match notes with
  | [] => ([], g)
  | _ =>
      if String.eqb mode "smooth" then (smooth_melody notes intensity root scale, g)
      else if String.eqb mode "bounce" then (bounce_melody notes intensity root scale, g)
      else if String.eqb mode "trap_run" then trap_run_melody notes intensity root scale g
      else if String.eqb mode "afro_vibe" then afro_vibe_melody notes intensity root scale g
      else if String.eqb mode "choir" then (choir_harmony notes intensity root scale, g)
      else (smooth_melody notes intensity root scale, g)
  end.





End Stochastic.

End Styles.

(** ** rhythm_processor.py: articulation, groove templates and triplets *)

Module Groove.
Import Rhythm.




Section Stochastic.
Context {G : Type} {rs : RandomState G}.


End Stochastic.


End Groove.

(** ** audio_processing.py: note segmentation and melody analysis *)

Module Audio.
Import MusicTheory Keys.

Section Segmentation.

(** [librosa.hz_to_midi], the fractional MIDI number of a frequency, is a
    logarithm: it is a parameter.  A frame of the pitch track is a time and a
    frequency, [None] standing for NaN. *)
Variable hz_to_midi : Q -> Q.

(** Lines 50-53: the pitch of a frame, [None] when it is unvoiced. *)
Definition frame_midi (freq : option Q) : option Z :=
  match freq with
  | None => None
  | Some f => if Qle_bool f 0 then None else Some (Py.int (inject_Z (Py.round (hz_to_midi f))))
  end.

(** The loop of lines 49-75 from a given state: the note that is open, if
    any, and the frames left; the notes are returned in the order they are
    closed. *)
Fixpoint segment_from (current_note : option note) (frames : list (Q * option Q))
  : list note * option note :=
  match frames with
  | [] => ([], current_note)
  | (t, freq) :: rest =>
      match frame_midi freq with
      | None =>
          match current_note with
          | Some c =>
              let '(closed, open) := segment_from None rest in
              (Note (midi c) (start c) t :: closed, open)
          | None => segment_from None rest
          end
      | Some m =>
          match current_note with
          | None => segment_from (Some (Note m t t)) rest
          | Some c =>
              if m =? midi c then segment_from (Some (Note (midi c) (start c) t)) rest
              else
                let '(closed, open) := segment_from (Some (Note m t t)) rest in
                (Note (midi c) (start c) t :: closed, open)
          end
      end
  end.

(** Lines 46-84: the raw notes, the last open note being closed at the time
    of the last frame, those shorter than 80 ms dropped. *)
Definition raw_notes_of (frames : list (Q * option Q)) : list note :=
  let '(closed, current_note) := segment_from None frames in
  let raw_notes :=
    match current_note with
    | Some c => closed ++ [Note (midi c) (start c) (default 0%Q (fst <$> last frames))]
    | None => closed
    end in
  let min_duration := 0.08%Q in
  filter (fun n => Qle_bool min_duration (end_ n - start n)) raw_notes.

Definition extract_melody_notes (frames : list (Q * option Q))
    (scale root : option string) (auto_detect_key : bool)
  : list note * string * string :=
  let raw_notes := raw_notes_of frames in
  match raw_notes with
  | [] => ([], "C", "minor")
  | first :: _ =>
      let '(root, scale) :=
        if auto_detect_key
           && (match root with None => true | Some _ => false end
               || match scale with None => true | Some _ => false end)
        then
          let '(detected_root, detected_scale) := detect_key raw_notes in
          (default detected_root root, default detected_scale scale)
        else (default "C" root, default "minor" scale) in
      let notes :=
        map (fun n => Note (quantize_to_scale (midi n) root scale) (start n) (end_ n))
            raw_notes in
      let first_start := start first in
      (map (fun n => Note (midi n) (start n - first_start) (end_ n - first_start)) notes,
       root, scale)
  end.

End Segmentation.

(** The dictionary returned by [analyze_melody]; the two keys that are
    absent for an empty melody are optional. *)
Record analysis := {
  num_notes : nat;
  duration : Q;
  pitch_range : Z;
  avg_interval : Q;
  lowest_note : option Z;
  highest_note : option Z
}.

(** [abs(midis[i+1] - midis[i])] for every [i]. *)
Fixpoint abs_intervals (midis : list Z) : list Z :=
  match midis with
  | a :: (b :: _) as tl => Z.abs (b - a) :: abs_intervals tl
  | _ => []
  end.

(** [np.mean] of a non-empty list of integers. *)
Definition np_mean (l : list Z) : Q :=
  (inject_Z (fold_left Z.add l 0%Z) / inject_Z (Z.of_nat (length l)))%Q.

Definition analyze_melody (notes : list note) : analysis :=
  match notes with
  | [] =>
      {| num_notes := 0; duration := 0.0%Q; pitch_range := 0; avg_interval := 0.0%Q;
         lowest_note := None; highest_note := None |}
  | n :: ns =>
      let midis := map midi notes in
      let duration := Py.max_of (end_ n) (map end_ ns) in
      let intervals := abs_intervals midis in
      let avg_interval :=
        match intervals with [] => 0%Q | _ => np_mean intervals end in
      let highest := fold_left Z.max (map midi ns) (midi n) in
      let lowest := fold_left Z.min (map midi ns) (midi n) in
      {| num_notes := length notes; duration := duration;
         pitch_range := highest - lowest; avg_interval := avg_interval;
         lowest_note := Some lowest; highest_note := Some highest |}
  end.

End Audio.

(** ** melody_generator.py: the ADSR envelope *)

Module Envelope.
Import Generator.

(** [np.linspace(a, b, num)] for [num >= 0]: [num] evenly spaced values, the
    first one [a] and, when there are two or more, the last one [b]. *)
Definition np_linspace (a b : Q) (num : Z) : list Q :=
  if num =? 1 then [a]
  else
    let step := ((b - a) / inject_Z (num - 1))%Q in
    map (fun i => (a + inject_Z (Z.of_nat i) * step)%Q) (seq 0 (Z.to_nat num)).

(** [arr[lo:hi] = vals] for an array [vals]: the slice is replaced when the
    lengths agree, filled with the single value of a one-element [vals], and
    a [ValueError] (shapes that cannot be broadcast) is raised otherwise. *)
Definition set_slice (arr : list Q) (lo hi : Z) (vals : list Q) : result (list Q) :=
  let n := Z.of_nat (length arr) in
  let a := Z.to_nat (clip_index n lo) in
  let b := Z.to_nat (clip_index n hi) in
  let k := (b - a)%nat in
  if (length vals =? k)%nat then Ok (take a arr ++ vals ++ drop (a + k) arr)
  else
    match vals with
    | [v] => Ok (take a arr ++ replicate k v ++ drop (a + k) arr)
    | _ => Raise (ValueError "could not broadcast input array")
    end.

(** [arr[lo:hi] = v] for a scalar [v]. *)
Definition fill_slice (arr : list Q) (lo hi : Z) (v : Q) : list Q :=
  let n := Z.of_nat (length arr) in
  let a := Z.to_nat (clip_index n lo) in
  let b := Z.to_nat (clip_index n hi) in
  let k := (b - a)%nat in
  take a arr ++ replicate k v ++ drop (a + k) arr.

Definition bind {A B} (r : result A) (f : A -> result B) : result B :=
  match r with
  | Ok a => f a
  | Raise e => Raise e
  end.

Definition generate_adsr_envelope (length sr : Z) (attack decay sustain release : Q)
  : result (list Q) :=
  if length <? 0 then Raise (ValueError "negative dimensions are not allowed")
  else
    let envelope := replicate (Z.to_nat length) 1%Q in
    let attack_samples := Py.int (attack * inject_Z sr) in
    let decay_samples := Py.int (decay * inject_Z sr) in
    let release_samples := Py.int (release * inject_Z sr) in
    (* Attack phase *)
    bind (if (0 <? attack_samples) && (attack_samples <? length)
          then set_slice envelope 0 attack_samples (np_linspace 0.0 1.0 attack_samples)
          else Ok envelope) (fun envelope =>
    (* Decay phase *)
    bind (if (0 <? decay_samples) && (attack_samples + decay_samples <? length)
          then
            let decay_start := attack_samples in
            let decay_end := attack_samples + decay_samples in
            set_slice envelope decay_start decay_end
              (np_linspace 1.0 sustain decay_samples)
          else Ok envelope) (fun envelope =>
    (* Sustain phase *)
    let sustain_start := attack_samples + decay_samples in
    let sustain_end := Z.max sustain_start (length - release_samples) in
    let envelope :=
      if sustain_start <? sustain_end
      then fill_slice envelope sustain_start sustain_end sustain
      else envelope in
    (* Release phase *)
    if (0 <? release_samples) && (release_samples <? length)
    then set_slice envelope (- release_samples) length
           (np_linspace sustain 0.0 release_samples)
    else Ok envelope)).

End Envelope.

(** ** Vocabulary of the properties *)

(** A well-formed interval list: not empty, every interval within one octave. *)
Definition scale_ok (l : list Z) : Prop :=
  l <> [] /\ Forall (fun d => 0 <= d < 12) l.

(** The interval picked by [quantize_to_scale]. *)
Definition closest_interval (midi_note : Z) (root scale : string) : Z :=
  default 0 (Py.min_by
    (fun d => Z.abs (d - (midi_note mod 12 - MusicTheory.root_offset root) mod 12))
    (MusicTheory.target_scale scale)).

(** The notes of [l] are in the order of their start times. *)
Definition sorted_by_start (l : list note) : Prop :=
  StronglySorted (fun a b => (start a <= start b)%Q) l.

(** A generator whose every draw is the same value; it serves to run the
    stochastic functions on concrete inputs. *)
Definition constant_draws (r : Q) (c : Z) : RandomState unit :=
  {| random := fun g => (r, g);
     uniform := fun _ _ g => (r, g);
     choice := fun _ g => (c, g) |}.



(** A concrete synthesis to run the audio renderer on: every pitch at
    440 Hz, a square wave of amplitude 1, no random draw. *)
Definition flat_pitch (m : Z) : Q := 440%Q.

Definition square_wave (cfg : Generator.instrument_config) (freq duration : Q)
    (sr : Z) (g : unit) (i : nat) : Q :=
  if Nat.even i then 1%Q else (-1)%Q.

Definition no_draw (cfg : Generator.instrument_config) (g : unit) : unit := g.




(** The candidate keys of [detect_key] in the order they are tried: roots
    ascending, scales in the listed order. *)
Definition candidates : list (nat * string) :=
  flat_map (fun root => map (pair root) Keys.scales_to_try) (seq 0 12).

(** The score and the key name of a candidate, for given weights. *)
Definition candidate_score (weights : list (Z * Q)) (c : nat * string) : Q :=
  Keys.key_score weights (Z.of_nat (fst c))
    (default [] (MusicTheory.SCALES !! snd c)).

Definition candidate_key (c : nat * string) : string * string :=
  (default "" (MusicTheory.NOTE_NAMES !! fst c), snd c).

(** [m] is a passing note in the gap between two consecutive notes of
    [notes]: it starts no earlier than the first ends, ends before the second
    starts, lasts, and its pitch belongs to the key. *)
Definition is_fill (notes : list note) (root scale : string) (m : note) : Prop :=
  exists (i : nat) (curr next : note),
    notes !! i = Some curr /\ notes !! S i = Some next
    /\ (end_ curr <= start m)%Q /\ (start m < end_ m)%Q /\ (end_ m < start next)%Q
    /\ In ((midi m - MusicTheory.root_offset root) mod 12)
          (MusicTheory.target_scale scale).

(** The number of harmony voices [choir_harmony] adds at [intensity]. *)
Definition harmony_voices (intensity : Q) : nat :=
  (if Py.Qltb 0.3 intensity then 1 else 0)
  + (if Py.Qltb 0.6 intensity then 1 else 0)
  + (if Py.Qltb 0.8 intensity then 1 else 0).




(** [a] is over when [b] begins: the two notes do not sound together. *)
Definition precedes (a b : note) : Prop := (end_ a <= start b)%Q.

(** The frames of a pitch track in which no pitch was found. *)
Definition unvoiced (hz_to_midi : Q -> Q) (frames : list (Q * option Q)) : Prop :=
  Forall (fun fr => Audio.frame_midi hz_to_midi (snd fr) = None) frames.

(** A message without its delta time. *)
Definition untimed (m : Generator.message) : Generator.message :=
  match m with
  | Generator.set_tempo v _ => Generator.set_tempo v 0
  | Generator.note_on n v _ => Generator.note_on n v 0
  | Generator.note_off n v _ => Generator.note_off n v 0
  end.

(** A pitch that a MIDI message can carry. *)
Definition data_byte (v : Z) : Prop := 0 <= v <= 127.

(** A delta time a track may hold: at least one tick before a note is
    released, never negative otherwise. *)
Definition delta_ok (m : Generator.message) : Prop :=
  match m with
  | Generator.note_off _ _ t => 1 <= t
  | _ => 0 <= Generator.time m
  end.

(** A level between silence and full scale. *)
Definition unit_range (x : Q) : Prop := (0 <= x)%Q /\ (x <= 1)%Q.

(** A pitch of the key: its distance to the root, modulo the octave, is an
    interval of the scale. *)
Definition in_key (root scale : string) (m : Z) : Prop :=
  In ((m - MusicTheory.root_offset root) mod 12) (MusicTheory.target_scale scale).

(** A melody without a jump of more than 5 semitones between two
    consecutive notes. *)
Definition stepwise (notes : list note) : Prop :=
  Forall (fun d => d <= 5) (Audio.abs_intervals (map midi notes)).

(** * Properties *)

(** ** Python primitives *)

Lemma min_by_fold_In {A} (k : A -> Z) (xs : list A) (x : A) :
  let r := fold_left (fun best d => if k d <? k best then d else best) xs x in
  r = x \/ In r xs.
Proof.
  revert x; induction xs as [|y ys IH]; intros x; simpl; [now left|].
  destruct (IH (if k y <? k x then y else x)) as [E|E].
  - rewrite E. destruct (k y <? k x); [right; now left | now left].
  - right; now right.
Qed.

Lemma min_by_In {A} (k : A -> Z) (l : list A) (x : A) :
  Py.min_by k l = Some x -> In x l.
Proof.
  destruct l as [|y ys]; simpl; [discriminate|].
  intros [= <-]. destruct (min_by_fold_In k ys y) as [E|E]; [left; now rewrite E | now right].
Qed.

Lemma min_by_nonempty {A} (k : A -> Z) (l : list A) :
  l <> [] -> exists x, Py.min_by k l = Some x.
Proof. destruct l; [congruence | intros _; eexists; reflexivity]. Qed.

Lemma index_lt (x : string) (l : list string) (i : nat) :
  Py.index x l = Some i -> (i < length l)%nat.
Proof.
  revert i; induction l as [|y ys IH]; intros i; simpl; [discriminate|].
  destruct (String.eqb y x).
  - intros [= <-]; lia.
  - destruct (Py.index x ys) as [j|]; simpl; [|discriminate].
    intros [= <-]. specialize (IH j eq_refl). lia.
Qed.

(** ** music_theory.py *)

Section ScaleCatalogue.
Import MusicTheory.

Lemma SCALES_ok (name : string) (l : list Z) :
  SCALES !! name = Some l -> scale_ok l.
Proof.
  intros H; apply elem_of_list_to_map_2 in H.
  change l with (snd (name, l)). revert H. generalize (name, l).
  apply (proj1 (Forall_forall (fun p => scale_ok (p.2)) _)).
  repeat (apply Forall_cons; split; [split; [discriminate | repeat constructor; lia] |]).
  apply Forall_nil; exact I.
Qed.

Lemma target_scale_inv (scale : string) : scale_ok (target_scale scale).
Proof.
  unfold target_scale. destruct (SCALES !! scale) eqn:E.
  - eapply SCALES_ok; eassumption.
  - apply (SCALES_ok "minor"). vm_compute. reflexivity.
Qed.

Lemma root_offset_range (root : string) : 0 <= root_offset root < 12.
Proof.
  unfold root_offset. destruct (Py.index root NOTE_NAMES) eqn:E.
  - apply index_lt in E. simpl in E. lia.
  - vm_compute. split; [discriminate | reflexivity].
Qed.

Lemma closest_interval_In midi_note root scale :
  In (closest_interval midi_note root scale) (target_scale scale).
Proof.
  unfold closest_interval.
  destruct (target_scale_inv scale) as [Hne _].
  destruct (min_by_nonempty
    (fun d => Z.abs (d - (midi_note mod 12 - root_offset root) mod 12)) _ Hne)
    as [x Hx].
  rewrite Hx. eapply min_by_In; eassumption.
Qed.

Lemma closest_interval_range midi_note root scale :
  0 <= closest_interval midi_note root scale < 12.
Proof.
  destruct (target_scale_inv scale) as [_ Hall].
  rewrite Forall_forall in Hall. apply Hall.
  apply list_elem_of_In, closest_interval_In.
Qed.

Lemma quantize_to_scale_eq midi_note root scale :
  quantize_to_scale midi_note root scale =
  midi_note / 12 * 12 + (root_offset root + closest_interval midi_note root scale) mod 12.
Proof. reflexivity. Qed.

(** The fallbacks: an unknown scale is read as "minor", an unknown root as
    "C". *)
Example target_scale_unknown :
  target_scale "klezmer" = [0; 2; 3; 5; 7; 8; 10]
  /\ target_scale "major" = [0; 2; 4; 5; 7; 9; 11].
Proof. split; vm_compute; reflexivity. Qed.

Example root_offset_unknown :
  root_offset "H" = 0 /\ root_offset "C" = 0 /\ root_offset "B" = 11.
Proof. repeat split; vm_compute; reflexivity. Qed.

(** C1. For every MIDI pitch (0..127, and in fact every integer), every root
    name and every scale name, the quantized pitch taken relative to the
    root's pitch class, modulo 12, is one of the intervals of the target
    scale, the target being the named scale or ["minor"] when the name is
    unknown, and the root ["C"] when its name is unknown. *)
Theorem quantize_to_scale_in_scale (midi_note : Z) (root scale : string) :
  In ((quantize_to_scale midi_note root scale - root_offset root) mod 12)
     (target_scale scale).
Proof.
  rewrite quantize_to_scale_eq.
  pose proof (closest_interval_range midi_note root scale) as Hc.
  pose proof (root_offset_range root) as Hr.
  pose proof (closest_interval_In midi_note root scale) as Hin.
  set (c := closest_interval midi_note root scale) in *.
  set (r := root_offset root) in *.
  replace ((midi_note / 12 * 12 + (r + c) mod 12 - r) mod 12) with c; [exact Hin|].
  symmetry.
  replace (midi_note / 12 * 12 + (r + c) mod 12 - r)
    with (((r + c) mod 12 - r) + (midi_note / 12) * 12) by ring.
  rewrite Z.mod_add by lia.
  rewrite Zminus_mod, Zmod_mod, <- Zminus_mod.
  replace (r + c - r) with c by ring.
  apply Z.mod_small; lia.
Qed.

(** C9. The quantized pitch lies in the octave of the input (same quotient
    by 12), so it is at most 11 semitones away from it; the distance 11 is
    reached (C4 = 60 in B minor gives 71), and a pitch of the top octave can
    leave the MIDI range (120 in B minor gives 131 > 127). *)
Theorem quantize_to_scale_same_octave :
  (forall (midi_note : Z) (root scale : string),
      quantize_to_scale midi_note root scale / 12 = midi_note / 12
      /\ Z.abs (quantize_to_scale midi_note root scale - midi_note) <= 11)
  /\ quantize_to_scale 60 "B" "minor" - 60 = 11
  /\ (0 <= 120 <= 127 /\ 127 < quantize_to_scale 120 "B" "minor").
Proof.
  split; [|split; [vm_compute; reflexivity | vm_compute; repeat split; discriminate]].
  intros midi_note root scale. rewrite quantize_to_scale_eq.
  set (q := (root_offset root + closest_interval midi_note root scale) mod 12).
  assert (Hq : 0 <= q < 12) by (apply Z.mod_pos_bound; lia).
  split.
  - rewrite Z.add_comm, Z.div_add by lia. rewrite Z.div_small by lia. reflexivity.
  - pose proof (Z.div_mod midi_note 12 ltac:(lia)) as Hm.
    pose proof (Z.mod_pos_bound midi_note 12 ltac:(lia)). lia.
Qed.

End ScaleCatalogue.

(** ** Powers of two *)

Lemma pow2_nonneg (e : Z) : 0 <= e -> (Float.pow2 e == inject_Z (2 ^ e))%Q.
Proof.
  intros He. unfold Float.pow2. destruct (0 <=? e) eqn:E; [reflexivity | lia].
Qed.

Lemma pow2_neg (e : Z) : e < 0 -> (Float.pow2 e == / inject_Z (2 ^ (- e)))%Q.
Proof.
  intros He. unfold Float.pow2. destruct (0 <=? e) eqn:E; [lia|].
  assert (Hp : 0 < 2 ^ (- e)) by (apply Z.pow_pos_nonneg; lia).
  unfold Qeq, Qinv, inject_Z. cbn [Qnum Qden].
  destruct (2 ^ (- e)) as [|p|p] eqn:Ep; [lia| |lia].
  cbn. reflexivity.
Qed.

Lemma pow2_pos (e : Z) : (0 < Float.pow2 e)%Q.
Proof.
  destruct (Z_lt_le_dec e 0) as [He|He].
  - rewrite (pow2_neg e He). apply Qinv_lt_0_compat.
    change 0%Q with (inject_Z 0). rewrite <- Zlt_Qlt. apply Z.pow_pos_nonneg; lia.
  - rewrite (pow2_nonneg e He). change 0%Q with (inject_Z 0). rewrite <- Zlt_Qlt.
    apply Z.pow_pos_nonneg; lia.
Qed.

Lemma pow2_opp (e : Z) : (Float.pow2 (- e) == / Float.pow2 e)%Q.
Proof.
  destruct (Z.lt_trichotomy e 0) as [He|[->|He]].
  - rewrite (pow2_neg e He), (pow2_nonneg (- e)) by lia. now rewrite Qinv_involutive.
  - reflexivity.
  - rewrite (pow2_neg (- e)) by lia. rewrite Z.opp_involutive.
    now rewrite (pow2_nonneg e) by lia.
Qed.

Lemma pow2_add_nonneg (a b : Z) :
  0 <= a -> 0 <= b -> (Float.pow2 (a + b) == Float.pow2 a * Float.pow2 b)%Q.
Proof.
  intros Ha Hb. rewrite !pow2_nonneg by lia. rewrite Z.pow_add_r by lia.
  now rewrite inject_Z_mult.
Qed.

Lemma pow2_sub_nonneg (a b : Z) :
  0 <= a -> 0 <= b -> (Float.pow2 (a - b) == Float.pow2 a / Float.pow2 b)%Q.
Proof.
  intros Ha Hb.
  pose proof (pow2_pos b) as Hpb.
  destruct (Z_lt_le_dec a b) as [Hlt|Hle].
  - replace (a - b) with (- (b - a)) by lia. rewrite pow2_opp.
    replace b with ((b - a) + a) at 2 by lia.
    rewrite (pow2_add_nonneg (b - a) a) by lia.
    pose proof (pow2_pos (b - a)). pose proof (pow2_pos a).
    field. split; lra.
  - replace a with ((a - b) + b) at 2 by lia.
    rewrite (pow2_add_nonneg (a - b) b) by lia. field. lra.
Qed.

Lemma pow2_add (a b : Z) : (Float.pow2 (a + b) == Float.pow2 a * Float.pow2 b)%Q.
Proof.
  pose proof (pow2_pos a) as Hpa. pose proof (pow2_pos b) as Hpb.
  destruct (Z_lt_le_dec a 0) as [Ha|Ha]; destruct (Z_lt_le_dec b 0) as [Hb|Hb].
  - replace (a + b) with (- ((- a) + (- b))) by lia.
    rewrite pow2_opp, pow2_add_nonneg by lia. rewrite !pow2_opp.
    field. split; lra.
  - replace (a + b) with (b - (- a)) by lia. rewrite pow2_sub_nonneg by lia.
    rewrite pow2_opp. field. lra.
  - replace (a + b) with (a - (- b)) by lia. rewrite pow2_sub_nonneg by lia.
    rewrite pow2_opp. field. lra.
  - apply pow2_add_nonneg; assumption.
Qed.

Lemma pow2_0 : (Float.pow2 0 == 1)%Q.
Proof. reflexivity. Qed.

Lemma pow2_ge_1 (e : Z) : 0 <= e -> (1 <= Float.pow2 e)%Q.
Proof.
  intros He. rewrite pow2_nonneg by exact He. change 1%Q with (inject_Z 1).
  rewrite <- Zle_Qle. pose proof (Z.pow_pos_nonneg 2 e). lia.
Qed.

Lemma pow2_le (a b : Z) : a <= b -> (Float.pow2 a <= Float.pow2 b)%Q.
Proof.
  intros Hab. replace b with (a + (b - a)) by lia. rewrite pow2_add.
  pose proof (pow2_pos a). pose proof (pow2_ge_1 (b - a) ltac:(lia)).
  rewrite <- (Qmult_1_r (Float.pow2 a)) at 1.
  apply Qmult_le_l; assumption.
Qed.

Lemma pow2_gt_1 (e : Z) : 0 < e -> (1 < Float.pow2 e)%Q.
Proof.
  intros He. rewrite pow2_nonneg by lia. change 1%Q with (inject_Z 1).
  rewrite <- Zlt_Qlt. apply Z.pow_gt_1; lia.
Qed.

Lemma pow2_lt (a b : Z) : a < b -> (Float.pow2 a < Float.pow2 b)%Q.
Proof.
  intros Hab. replace b with (a + (b - a)) by lia. rewrite pow2_add.
  pose proof (pow2_pos a). pose proof (pow2_gt_1 (b - a) ltac:(lia)).
  rewrite <- (Qmult_1_r (Float.pow2 a)) at 1.
  apply Qmult_lt_l; assumption.
Qed.

Lemma pow2_lt_inv (a b : Z) : (Float.pow2 a < Float.pow2 b)%Q -> a < b.
Proof.
  intros H. destruct (Z_lt_le_dec a b) as [|Hle]; [assumption|].
  apply pow2_le in Hle. lra.
Qed.

Lemma pow2_succ (a : Z) : (Float.pow2 (a + 1) == 2 * Float.pow2 a)%Q.
Proof. rewrite pow2_add. change (Float.pow2 1) with 2%Q. ring. Qed.

(** ** The binary logarithm *)

Lemma ilog2_spec (x : Q) :
  (0 < x)%Q -> (Float.pow2 (Float.ilog2 x) <= x)%Q /\ (x < Float.pow2 (Float.ilog2 x + 1))%Q.
Proof.
  intros Hx. destruct x as [n d]. unfold Float.ilog2. cbn [Qnum Qden].
  assert (Hn : 0 < n) by (unfold Qlt in Hx; cbn in Hx; lia).
  pose proof (Z.log2_spec n Hn) as [Hn1 Hn2].
  pose proof (Z.log2_spec (Zpos d) ltac:(lia)) as [Hd1 Hd2].
  pose proof (Z.log2_nonneg n) as Hln. pose proof (Z.log2_nonneg (Zpos d)) as Hld.
  set (ln := Z.log2 n) in *. set (ld := Z.log2 (Zpos d)) in *.
  assert (Hq : (n # d == inject_Z n / inject_Z (Zpos d))%Q) by apply Qmake_Qdiv.
  assert (Hdpos : (0 < inject_Z (Zpos d))%Q).
  { change 0%Q with (inject_Z 0). rewrite <- Zlt_Qlt. lia. }
  assert (Hup : (n # d < Float.pow2 (ln - ld + 1))%Q).
  { rewrite Hq. apply Qlt_shift_div_r; [exact Hdpos|].
    replace (ln - ld + 1) with ((ln + 1) - ld) by lia.
    rewrite pow2_sub_nonneg by lia. rewrite !pow2_nonneg by lia.
    assert (H3 : (0 < inject_Z (2 ^ ld))%Q).
    { change 0%Q with (inject_Z 0). rewrite <- Zlt_Qlt. apply Z.pow_pos_nonneg; lia. }
    assert (Hre : (inject_Z (2 ^ (ln + 1)) / inject_Z (2 ^ ld) * inject_Z (Z.pos d)
                   == inject_Z (2 ^ (ln + 1)) * inject_Z (Z.pos d) / inject_Z (2 ^ ld))%Q)
      by (field; lra).
    rewrite Hre. clear Hre.
    apply Qlt_shift_div_l; [exact H3|].
    rewrite <- !inject_Z_mult, <- Zlt_Qlt.
    assert (0 < 2 ^ ld) by (apply Z.pow_pos_nonneg; lia). nia. }
  assert (Hlow : (Float.pow2 (ln - ld - 1) < n # d)%Q).
  { rewrite Hq. apply Qlt_shift_div_l; [exact Hdpos|].
    replace (ln - ld - 1) with (ln - (ld + 1)) by lia.
    rewrite pow2_sub_nonneg by lia. rewrite !pow2_nonneg by lia.
    assert (H3 : (0 < inject_Z (2 ^ (ld + 1)))%Q).
    { change 0%Q with (inject_Z 0). rewrite <- Zlt_Qlt. apply Z.pow_pos_nonneg; lia. }
    assert (Hre : (inject_Z (2 ^ ln) / inject_Z (2 ^ (ld + 1)) * inject_Z (Z.pos d)
                   == inject_Z (2 ^ ln) * inject_Z (Z.pos d) / inject_Z (2 ^ (ld + 1)))%Q)
      by (field; lra).
    rewrite Hre. clear Hre.
    apply Qlt_shift_div_r; [exact H3|].
    rewrite <- !inject_Z_mult, <- Zlt_Qlt.
    assert (0 < 2 ^ ln) by (apply Z.pow_pos_nonneg; lia). nia. }
  destruct (Qle_bool (Float.pow2 (ln - ld)) (n # d)) eqn:E.
  - apply Qle_bool_iff in E. split; assumption.
  - assert (Hlt : (n # d < Float.pow2 (ln - ld))%Q).
    { destruct (Qlt_le_dec (n # d) (Float.pow2 (ln - ld))) as [|Hle]; [assumption|].
      apply Qle_bool_iff in Hle. congruence. }
    replace (ln - ld - 1 + 1) with (ln - ld) by lia. split; [apply Qlt_le_weak|]; assumption.
Qed.

Lemma ilog2_unique (x : Q) (k : Z) :
  (Float.pow2 k <= x)%Q -> (x < Float.pow2 (k + 1))%Q -> Float.ilog2 x = k.
Proof.
  intros Hlo Hhi. assert (Hx : (0 < x)%Q) by (pose proof (pow2_pos k); lra).
  destruct (ilog2_spec x Hx) as [H1 H2].
  assert (Float.ilog2 x < k + 1) by (apply pow2_lt_inv; lra).
  assert (k < Float.ilog2 x + 1) by (apply pow2_lt_inv; lra).
  lia.
Qed.

Lemma ilog2_comp (x y : Q) : (0 < x)%Q -> (x == y)%Q -> Float.ilog2 x = Float.ilog2 y.
Proof.
  intros Hx Hxy. destruct (ilog2_spec x Hx) as [H1 H2].
  symmetry. apply ilog2_unique; rewrite <- Hxy; assumption.
Qed.

Lemma ilog2_mono (x y : Q) :
  (0 < x)%Q -> (x <= y)%Q -> Float.ilog2 x <= Float.ilog2 y.
Proof.
  intros Hx Hxy. destruct (ilog2_spec x Hx) as [H1 _].
  destruct (ilog2_spec y ltac:(lra)) as [_ H2].
  assert (Float.ilog2 x < Float.ilog2 y + 1) by (apply pow2_lt_inv; lra). lia.
Qed.

(** ** Rounding to the nearest integer (continued) *)

Lemma round_comp (x y : Q) : (x == y)%Q -> Py.round x = Py.round y.
Proof.
  intros Hxy. unfold Py.round. rewrite (Qfloor_comp x y Hxy).
  assert (Hc : ((x - inject_Z (Qfloor y)) ?= (1 # 2))%Q
               = ((y - inject_Z (Qfloor y)) ?= (1 # 2))%Q)
    by (now rewrite Hxy).
  now rewrite Hc.
Qed.

Lemma round_inject_Z (k : Z) : Py.round (inject_Z k) = k.
Proof.
  unfold Py.round. rewrite Qfloor_Z.
  assert (Hc : ((inject_Z k - inject_Z k) ?= (1 # 2))%Q = Lt).
  { apply (proj1 (Qlt_alt _ _)). lra. }
  now rewrite Hc.
Qed.

Lemma round_ge_floor (x : Q) : Qfloor x <= Py.round x.
Proof.
  unfold Py.round. destruct (_ ?= _)%Q; [destruct (Z.even _)| |]; lia.
Qed.

Lemma round_le_floor_succ (x : Q) : Py.round x <= Qfloor x + 1.
Proof.
  unfold Py.round. destruct (_ ?= _)%Q; [destruct (Z.even _)| |]; lia.
Qed.

(** The three cases of [round], as facts about the fractional part. *)
Lemma round_cases (x : Q) :
  (Py.round x = Qfloor x /\ (x - inject_Z (Qfloor x) <= 1 # 2)%Q
   /\ ((x - inject_Z (Qfloor x) == 1 # 2)%Q -> Z.even (Qfloor x) = true))
  \/ (Py.round x = Qfloor x + 1 /\ (1 # 2 <= x - inject_Z (Qfloor x))%Q
      /\ ((x - inject_Z (Qfloor x) == 1 # 2)%Q -> Z.even (Qfloor x) = false)).
Proof.
  unfold Py.round.
  destruct (Qcompare_spec (x - inject_Z (Qfloor x)) (1 # 2)) as [He|Hl|Hg].
  - destruct (Z.even (Qfloor x)) eqn:E.
    + left. split; [reflexivity|]. split; [lra | intros; reflexivity].
    + right. split; [reflexivity|]. split; [lra | intros; reflexivity].
  - left. split; [reflexivity|]. split; [lra | intros; lra].
  - right. split; [reflexivity|]. split; [lra | intros; lra].
Qed.

Lemma round_mono (x y : Q) : (x <= y)%Q -> Py.round x <= Py.round y.
Proof.
  intros Hxy. pose proof (Qfloor_resp_le x y Hxy) as Hf.
  destruct (Z.eq_dec (Qfloor x) (Qfloor y)) as [Heq|Hne].
  - destruct (round_cases x) as [(Hx & Hx1 & Hx2)|(Hx & Hx1 & Hx2)];
      destruct (round_cases y) as [(Hy & Hy1 & Hy2)|(Hy & Hy1 & Hy2)]; try lia.
    rewrite Heq in *.
    assert (Hxe : (x - inject_Z (Qfloor y) == 1 # 2)%Q) by lra.
    assert (Hye : (y - inject_Z (Qfloor y) == 1 # 2)%Q) by lra.
    specialize (Hx2 Hxe). specialize (Hy2 Hye). congruence.
  - pose proof (round_le_floor_succ x). pose proof (round_ge_floor y). lia.
Qed.

Lemma round_half (x : Q) :
  (inject_Z (Py.round x) - x <= 1 # 2)%Q /\ (x - inject_Z (Py.round x) <= 1 # 2)%Q.
Proof.
  pose proof (Qfloor_le x) as Hl. pose proof (Qlt_floor x) as Hu.
  rewrite inject_Z_plus in Hu. change (inject_Z 1) with 1%Q in Hu.
  destruct (round_cases x) as [(-> & H1 & _)|(-> & H1 & _)].
  - split; lra.
  - rewrite inject_Z_plus. change (inject_Z 1) with 1%Q. split; lra.
Qed.

Lemma floor_unique (x : Q) (f : Z) :
  (inject_Z f <= x)%Q -> (x < inject_Z f + 1)%Q -> Qfloor x = f.
Proof.
  intros Hl Hu. pose proof (Qfloor_le x) as Hl'. pose proof (Qlt_floor x) as Hu'.
  rewrite inject_Z_plus in Hu'. change (inject_Z 1) with 1%Q in Hu'.
  assert (H1 : (inject_Z f < inject_Z (Qfloor x) + 1)%Q) by lra.
  assert (H2 : (inject_Z (Qfloor x) < inject_Z f + 1)%Q) by lra.
  change 1%Q with (inject_Z 1) in H1, H2. rewrite <- inject_Z_plus in H1, H2.
  rewrite <- Zlt_Qlt in H1, H2. lia.
Qed.

Lemma round_opp (x : Q) : Py.round (- x) = - Py.round x.
Proof.
  pose proof (Qfloor_le x) as Hl. pose proof (Qlt_floor x) as Hu.
  rewrite inject_Z_plus in Hu. change (inject_Z 1) with 1%Q in Hu.
  destruct (Qeq_dec x (inject_Z (Qfloor x))) as [Hint|Hfrac].
  - rewrite (round_comp x _ Hint), round_inject_Z.
    rewrite (round_comp (- x) (inject_Z (- Qfloor x))); [apply round_inject_Z|].
    rewrite inject_Z_opp. rewrite Hint at 1. reflexivity.
  - assert (Hlt : (inject_Z (Qfloor x) < x)%Q).
    { destruct (Qlt_le_dec (inject_Z (Qfloor x)) x) as [|Hle]; [assumption|].
      exfalso. apply Hfrac. lra. }
    assert (Hfo : Qfloor (- x) = - Qfloor x - 1).
    { apply floor_unique.
      - unfold Z.sub. rewrite inject_Z_plus, !inject_Z_opp. change (inject_Z 1) with 1%Q. lra.
      - unfold Z.sub. rewrite inject_Z_plus, !inject_Z_opp. change (inject_Z 1) with 1%Q. lra. }
    assert (Hfi : inject_Z (Qfloor (- x)) == - inject_Z (Qfloor x) - 1).
    { rewrite Hfo. unfold Z.sub. rewrite inject_Z_plus, !inject_Z_opp. reflexivity. }
    destruct (round_cases x) as [(Hx & Hx1 & Hx2)|(Hx & Hx1 & Hx2)];
      destruct (round_cases (- x)) as [(Hy & Hy1 & Hy2)|(Hy & Hy1 & Hy2)];
      rewrite Hx, Hy, Hfo; try lia.
    + (* both round down: the fractional part is 1/2 *)
      assert (He : (x - inject_Z (Qfloor x) == 1 # 2)%Q) by lra.
      assert (He' : (- x - inject_Z (Qfloor (- x)) == 1 # 2)%Q) by lra.
      specialize (Hx2 He). specialize (Hy2 He'). rewrite Hfo in Hy2.
      replace (- Qfloor x - 1) with (- (Qfloor x + 1)) in Hy2 by lia.
      rewrite Z.even_opp, Z.even_add in Hy2. rewrite Hx2 in Hy2. discriminate.
    + assert (He : (x - inject_Z (Qfloor x) == 1 # 2)%Q) by lra.
      assert (He' : (- x - inject_Z (Qfloor (- x)) == 1 # 2)%Q) by lra.
      specialize (Hx2 He). specialize (Hy2 He'). rewrite Hfo in Hy2.
      replace (- Qfloor x - 1) with (- (Qfloor x + 1)) in Hy2 by lia.
      rewrite Z.even_opp, Z.even_add in Hy2. rewrite Hx2 in Hy2. discriminate.
Qed.

(** ** Rounding to a binary format *)

Section RoundTo.
Variables prec emin : Z.
Hypothesis prec_pos : 0 < prec.

Lemma round_to_eq (x : Q) :
  (Float.round_to prec emin x
   == inject_Z (Py.round (x / Float.pow2 (Float.uexp prec emin x))) * Float.pow2 (Float.uexp prec emin x))%Q.
Proof. unfold Float.round_to. apply Qred_correct. Qed.

Lemma round_to_0 (x : Q) : (x == 0)%Q -> Float.round_to prec emin x = 0%Q.
Proof.
  intros Hx. unfold Float.round_to.
  change 0%Q with (Qred 0). apply Qred_complete.
  rewrite (round_comp _ (inject_Z 0)); [rewrite round_inject_Z; ring|].
  transitivity (0 / Float.pow2 (Float.uexp prec emin x))%Q.
  - apply Qdiv_comp; [exact Hx | reflexivity].
  - unfold Qdiv. ring.
Qed.

Lemma Qabs_pos_nz (x : Q) : ~ (x == 0)%Q -> (0 < Qabs x)%Q.
Proof.
  intros Hnz. pose proof (Qabs_nonneg x).
  destruct (Qeq_dec (Qabs x) 0) as [Hz|Hz]; [|lra].
  exfalso. apply Hnz. assert (Hle : (Qabs x <= 0)%Q) by lra.
  apply Qabs_Qle_condition in Hle. lra.
Qed.

Lemma uexp_comp (x y : Q) : ~ (x == 0)%Q -> (x == y)%Q -> Float.uexp prec emin x = Float.uexp prec emin y.
Proof.
  intros Hnz Hxy. unfold Float.uexp. f_equal. f_equal. apply ilog2_comp.
  - apply Qabs_pos_nz, Hnz.
  - now rewrite Hxy.
Qed.

Lemma round_to_comp (x y : Q) :
  (x == y)%Q -> Float.round_to prec emin x = Float.round_to prec emin y.
Proof.
  intros Hxy. destruct (Qeq_dec x 0) as [Hz|Hnz].
  - rewrite (round_to_0 x Hz), (round_to_0 y); [reflexivity | now rewrite <- Hxy].
  - unfold Float.round_to. apply Qred_complete.
    rewrite (uexp_comp x y Hnz Hxy).
    rewrite (round_comp (x / Float.pow2 (Float.uexp prec emin y)) (y / Float.pow2 (Float.uexp prec emin y)));
      [reflexivity|]. now rewrite Hxy.
Qed.

Lemma uexp_opp (x : Q) : Float.uexp prec emin (- x) = Float.uexp prec emin x.
Proof.
  destruct (Qeq_dec x 0) as [Hz|Hnz].
  - unfold Float.uexp. destruct x as [n d]. unfold Qeq in Hz. cbn in Hz.
    assert (n = 0) by lia. subst n. reflexivity.
  - unfold Float.uexp. f_equal. f_equal. apply ilog2_comp; [|apply Qabs_opp].
    apply Qabs_pos_nz. intros Hz. apply Hnz. lra.
Qed.

Lemma round_to_opp (x : Q) :
  Float.round_to prec emin (- x) = (- Float.round_to prec emin x)%Q.
Proof.
  unfold Float.round_to. rewrite uexp_opp.
  rewrite <- Qred_opp. apply Qred_complete.
  rewrite (round_comp (- x / Float.pow2 (Float.uexp prec emin x)) (- (x / Float.pow2 (Float.uexp prec emin x))))
    by (unfold Qdiv; ring).
  rewrite round_opp, inject_Z_opp. ring.
Qed.

Lemma uexp_pos (x : Q) :
  (0 < x)%Q -> Float.uexp prec emin x = Z.max emin (Float.ilog2 x - (prec - 1)).
Proof.
  intros Hx. unfold Float.uexp. f_equal. f_equal. apply ilog2_comp.
  - rewrite Qabs_pos; lra.
  - apply Qabs_pos; lra.
Qed.

(** A positive number is less than [2 ** (uexp + prec)], and at least
    [2 ** (uexp + prec - 1)] when it is not subnormal. *)
Lemma uexp_upper (x : Q) : (0 < x)%Q -> (x < Float.pow2 (Float.uexp prec emin x + prec))%Q.
Proof.
  intros Hx. rewrite (uexp_pos x Hx). destruct (ilog2_spec x Hx) as [_ Hu].
  eapply Qlt_le_trans; [exact Hu|]. apply pow2_le. lia.
Qed.

Lemma uexp_lower (x : Q) :
  (0 < x)%Q -> emin < Float.uexp prec emin x -> (Float.pow2 (Float.uexp prec emin x + prec - 1) <= x)%Q.
Proof.
  intros Hx He. rewrite (uexp_pos x Hx) in *. destruct (ilog2_spec x Hx) as [Hl _].
  replace (Z.max emin (Float.ilog2 x - (prec - 1)) + prec - 1) with (Float.ilog2 x) by lia.
  exact Hl.
Qed.

Lemma uexp_mono (x y : Q) : (0 < x)%Q -> (x <= y)%Q -> Float.uexp prec emin x <= Float.uexp prec emin y.
Proof.
  intros Hx Hxy. rewrite (uexp_pos x Hx), (uexp_pos y) by lra.
  pose proof (ilog2_mono x y Hx Hxy). lia.
Qed.

Lemma round_to_nonneg (x : Q) : (0 <= x)%Q -> (0 <= Float.round_to prec emin x)%Q.
Proof.
  intros Hx. rewrite round_to_eq. pose proof (pow2_pos (Float.uexp prec emin x)) as Hp.
  apply Qmult_le_0_compat; [|lra].
  change 0%Q with (inject_Z 0). rewrite <- Zle_Qle.
  rewrite <- (round_inject_Z 0). apply round_mono.
  change (inject_Z 0) with 0%Q. apply Qle_shift_div_l; [exact Hp | lra].
Qed.

Lemma scaled_mult (x : Q) (e : Z) : (x / Float.pow2 e * Float.pow2 e == x)%Q.
Proof. pose proof (pow2_pos e). field. lra. Qed.

Lemma round_to_mono_pos (x y : Q) :
  (0 < x)%Q -> (x <= y)%Q ->
  (Float.round_to prec emin x <= Float.round_to prec emin y)%Q.
Proof.
  intros Hx Hxy. assert (Hy : (0 < y)%Q) by lra.
  pose proof (uexp_mono x y Hx Hxy) as He.
  rewrite !round_to_eq.
  pose proof (pow2_pos (Float.uexp prec emin x)) as Hpx. pose proof (pow2_pos (Float.uexp prec emin y)) as Hpy.
  destruct (Z.eq_dec (Float.uexp prec emin x) (Float.uexp prec emin y)) as [Heq|Hne].
  - rewrite Heq. apply Qmult_le_compat_r; [|lra]. rewrite <- Zle_Qle.
    apply round_mono. apply Qmult_le_r with (Float.pow2 (Float.uexp prec emin y)); [exact Hpy|].
    rewrite !scaled_mult. exact Hxy.
  - (* the exponents differ: a power of two lies between the two *)
    assert (Hlt : Float.uexp prec emin x < Float.uexp prec emin y) by lia.
    apply Qle_trans with (Float.pow2 (Float.uexp prec emin x + prec)).
    + (* round (x / 2^ex) <= 2^prec *)
      rewrite pow2_add, Qmult_comm. apply Qmult_le_l; [exact Hpx|].
      rewrite (pow2_nonneg prec) by lia. rewrite <- Zle_Qle.
      rewrite <- (round_inject_Z (2 ^ prec)). apply round_mono.
      rewrite <- (pow2_nonneg prec) by lia.
      apply Qle_shift_div_r; [exact Hpx|]. rewrite <- pow2_add, Z.add_comm.
      apply Qlt_le_weak, uexp_upper, Hx.
    + apply Qle_trans with (Float.pow2 (Float.uexp prec emin y + prec - 1)); [apply pow2_le; lia|].
      replace (Float.uexp prec emin y + prec - 1) with ((prec - 1) + Float.uexp prec emin y) by lia.
      rewrite pow2_add. apply Qmult_le_compat_r; [|lra].
      rewrite (pow2_nonneg (prec - 1)) by lia. rewrite <- Zle_Qle.
      rewrite <- (round_inject_Z (2 ^ (prec - 1))). apply round_mono.
      rewrite <- (pow2_nonneg (prec - 1)) by lia.
      apply Qle_shift_div_l; [exact Hpy|]. rewrite <- pow2_add.
      replace (prec - 1 + Float.uexp prec emin y) with (Float.uexp prec emin y + prec - 1) by lia.
      assert (emin <= Float.uexp prec emin x) by (unfold Float.uexp; lia).
      apply uexp_lower; [exact Hy | lia].
Qed.

Lemma round_to_mono (x y : Q) :
  (x <= y)%Q -> (Float.round_to prec emin x <= Float.round_to prec emin y)%Q.
Proof.
  intros Hxy.
  destruct (Qlt_le_dec 0 x) as [Hx|Hx]; [now apply round_to_mono_pos|].
  destruct (Qlt_le_dec y 0) as [Hy|Hy].
  - (* both negative *)
    assert (H : (Float.round_to prec emin (- y) <= Float.round_to prec emin (- x))%Q)
      by (apply round_to_mono_pos; lra).
    rewrite !round_to_opp in H. lra.
  - apply Qle_trans with 0%Q; [|now apply round_to_nonneg].
    assert (H : (0 <= Float.round_to prec emin (- x))%Q) by (apply round_to_nonneg; lra).
    rewrite round_to_opp in H. lra.
Qed.

(** The numbers of the format: [m * 2 ** e] with [|m| < 2 ** prec] and
    [e >= emin]; rounding leaves them as they are. *)
Lemma round_to_exact (x : Q) (m e : Z) :
  (x == inject_Z m * Float.pow2 e)%Q -> Z.abs m < 2 ^ prec -> emin <= e ->
  (Float.round_to prec emin x == x)%Q.
Proof.
  intros Hx Hm He. destruct (Z.eq_dec m 0) as [->|Hnz].
  { rewrite (round_to_0 x); [|rewrite Hx; ring]. rewrite Hx. ring. }
  assert (Hgen : forall x m, (x == inject_Z m * Float.pow2 e)%Q -> 0 < m < 2 ^ prec ->
            (Float.round_to prec emin x == x)%Q).
  { clear x m Hx Hm Hnz. intros x m Hx Hm.
    pose proof (pow2_pos e) as Hpe.
    assert (Hxpos : (0 < x)%Q).
    { rewrite Hx. apply Qmult_lt_0_compat; [|exact Hpe].
      change 0%Q with (inject_Z 0). rewrite <- Zlt_Qlt. lia. }
    assert (Hxlt : (x < Float.pow2 (prec + e))%Q).
    { rewrite Hx, pow2_add. apply Qmult_lt_r; [exact Hpe|].
      rewrite (pow2_nonneg prec) by lia. rewrite <- Zlt_Qlt. lia. }
    assert (Hu : Float.uexp prec emin x <= e).
    { rewrite (uexp_pos x Hxpos). destruct (ilog2_spec x Hxpos) as [Hl _].
      assert (Float.ilog2 x < prec + e) by (apply pow2_lt_inv; lra). lia. }
    rewrite round_to_eq.
    assert (Hint : (x / Float.pow2 (Float.uexp prec emin x) == inject_Z (m * 2 ^ (e - Float.uexp prec emin x)))%Q).
    { rewrite inject_Z_mult, <- (pow2_nonneg (e - Float.uexp prec emin x)) by lia.
      replace (e - Float.uexp prec emin x) with (e + - Float.uexp prec emin x) by lia. rewrite pow2_add, pow2_opp.
      unfold Qdiv. rewrite Qmult_assoc. apply Qmult_comp; [exact Hx | reflexivity]. }
    rewrite (round_comp _ _ Hint), round_inject_Z, <- Hint. apply scaled_mult. }
  destruct (Z_lt_le_dec 0 m) as [Hpos|Hneg].
  - apply (Hgen x m Hx). lia.
  - assert (H : (Float.round_to prec emin (- x) == - x)%Q).
    { apply (Hgen (- x)%Q (- m)); [|lia]. rewrite Hx, inject_Z_opp. ring. }
    rewrite round_to_opp in H. lra.
Qed.

Lemma round_to_pow2 (e : Z) :
  emin <= e -> (Float.round_to prec emin (Float.pow2 e) == Float.pow2 e)%Q.
Proof.
  intros He. apply (round_to_exact _ 1 e); [ring | | exact He].
  cbn. apply Z.pow_gt_1; lia.
Qed.

(** Integers up to [2 ** prec] are numbers of the format. *)
Lemma round_to_int (z : Z) :
  emin <= 0 -> Z.abs z <= 2 ^ prec ->
  (Float.round_to prec emin (inject_Z z) == inject_Z z)%Q.
Proof.
  intros He Hz. destruct (Z_lt_le_dec (Z.abs z) (2 ^ prec)) as [Hlt|Hge].
  - apply (round_to_exact _ z 0); [rewrite pow2_0; ring | exact Hlt | exact He].
  - assert (Habs : Z.abs z = 2 ^ prec) by lia.
    assert (Hp : (inject_Z (2 ^ prec) == Float.pow2 prec)%Q)
      by (now rewrite (pow2_nonneg prec) by lia).
    destruct (Z.abs_eq_or_opp z) as [Hz'|Hz'].
    + rewrite <- Hz', Habs. rewrite (round_to_comp _ _ Hp), Hp.
      apply round_to_pow2. lia.
    + assert (Hzz : z = - 2 ^ prec) by lia. rewrite Hzz, inject_Z_opp.
      rewrite round_to_opp, (round_to_comp _ _ Hp), Hp.
      rewrite round_to_pow2; [reflexivity | lia].
Qed.

Lemma round_to_Qred (x : Q) :
  Qred (Float.round_to prec emin x) = Float.round_to prec emin x.
Proof. unfold Float.round_to. apply Qred_complete, Qred_correct. Qed.

(** The result of a rounding is a number of the format. *)
Lemma round_to_idem (x : Q) :
  Float.round_to prec emin (Float.round_to prec emin x) = Float.round_to prec emin x.
Proof.
  assert (Hpos : forall x, (0 < x)%Q ->
            (Float.round_to prec emin (Float.round_to prec emin x)
             == Float.round_to prec emin x)%Q).
  { clear x. intros x Hx.
    pose proof (pow2_pos (Float.uexp prec emin x)) as Hp.
    assert (Hb : 0 <= Py.round (x / Float.pow2 (Float.uexp prec emin x)) <= 2 ^ prec).
    { split.
      - rewrite <- (round_inject_Z 0). apply round_mono.
        change (inject_Z 0) with 0%Q. apply Qle_shift_div_l; [exact Hp | lra].
      - rewrite <- (round_inject_Z (2 ^ prec)). apply round_mono.
        rewrite <- (pow2_nonneg prec) by lia.
        apply Qle_shift_div_r; [exact Hp|]. rewrite <- pow2_add, Z.add_comm.
        apply Qlt_le_weak, uexp_upper, Hx. }
    set (m := Py.round (x / Float.pow2 (Float.uexp prec emin x))) in *.
    assert (He : emin <= Float.uexp prec emin x) by (unfold Float.uexp; lia).
    destruct (Z_lt_le_dec m (2 ^ prec)) as [Hlt|Hge].
    - apply (round_to_exact _ m (Float.uexp prec emin x)); [apply round_to_eq | lia | exact He].
    - assert (Hm : m = 2 ^ prec) by lia.
      assert (Hr : (Float.round_to prec emin x == Float.pow2 (prec + Float.uexp prec emin x))%Q).
      { rewrite round_to_eq. fold m. rewrite Hm, pow2_add, (pow2_nonneg prec) by lia.
        reflexivity. }
      rewrite (round_to_comp _ _ Hr), Hr. apply round_to_pow2. lia. }
  assert (Heq : (Float.round_to prec emin (Float.round_to prec emin x)
                 == Float.round_to prec emin x)%Q).
  { destruct (Qlt_le_dec 0 x) as [Hx|Hx]; [now apply Hpos|].
    destruct (Qeq_dec x 0) as [Hz|Hnz].
    - rewrite (round_to_0 x Hz). now rewrite round_to_0.
    - assert (H := Hpos (- x)%Q ltac:(lra)).
      rewrite round_to_opp in H. rewrite round_to_opp in H. lra. }
  transitivity (Qred (Float.round_to prec emin (Float.round_to prec emin x)));
    [symmetry; apply round_to_Qred|].
  transitivity (Qred (Float.round_to prec emin x));
    [apply Qred_complete; exact Heq | apply round_to_Qred].
Qed.

(** Rounding moves a number by at most half a unit in the last place. *)
Lemma round_to_error (x : Q) :
  (Qabs (Float.round_to prec emin x - x) <= (1 # 2) * Float.pow2 (Float.uexp prec emin x))%Q.
Proof.
  pose proof (pow2_pos (Float.uexp prec emin x)) as Hp.
  destruct (round_half (x / Float.pow2 (Float.uexp prec emin x))) as [H1 H2].
  rewrite round_to_eq. apply Qabs_Qle_condition.
  set (m := inject_Z (Py.round (x / Float.pow2 (Float.uexp prec emin x)))) in *.
  assert (Hx : (x == x / Float.pow2 (Float.uexp prec emin x) * Float.pow2 (Float.uexp prec emin x))%Q)
    by (now rewrite scaled_mult).
  set (t := (x / Float.pow2 (Float.uexp prec emin x))%Q) in *.
  assert (Ha : ((m - t) * Float.pow2 (Float.uexp prec emin x) <= (1 # 2) * Float.pow2 (Float.uexp prec emin x))%Q)
    by (apply Qmult_le_compat_r; lra).
  assert (Hb : ((t - m) * Float.pow2 (Float.uexp prec emin x) <= (1 # 2) * Float.pow2 (Float.uexp prec emin x))%Q)
    by (apply Qmult_le_compat_r; lra).
  clearbody m t. set (p := Float.pow2 (Float.uexp prec emin x)) in *. clearbody p.
  split; lra.
Qed.

End RoundTo.


(** ** binary64 and binary32 *)

Lemma rnd_comp (x y : Q) : (x == y)%Q -> Float.rnd x = Float.rnd y.
Proof. apply round_to_comp. Qed.

Lemma rnd_eq (x y : Q) : (x == y)%Q -> (Float.rnd x == Float.rnd y)%Q.
Proof. intros H. now rewrite (rnd_comp x y H). Qed.

#[global] Instance round_proper : Proper (Qeq ==> eq) Py.round.
Proof. intros x y H. now apply round_comp. Qed.

#[global] Instance rnd_proper : Proper (Qeq ==> Qeq) Float.rnd.
Proof. intros x y H. now apply rnd_eq. Qed.

#[global] Instance fadd_proper : Proper (Qeq ==> Qeq ==> Qeq) Float.fadd.
Proof. intros a b Hab c d Hcd. unfold Float.fadd. now rewrite Hab, Hcd. Qed.

#[global] Instance fsub_proper : Proper (Qeq ==> Qeq ==> Qeq) Float.fsub.
Proof. intros a b Hab c d Hcd. unfold Float.fsub. now rewrite Hab, Hcd. Qed.

#[global] Instance fmul_proper : Proper (Qeq ==> Qeq ==> Qeq) Float.fmul.
Proof. intros a b Hab c d Hcd. unfold Float.fmul. now rewrite Hab, Hcd. Qed.

#[global] Instance fdiv_proper : Proper (Qeq ==> Qeq ==> Qeq) Float.fdiv.
Proof. intros a b Hab c d Hcd. unfold Float.fdiv. now rewrite Hab, Hcd. Qed.

Lemma rnd_mono (x y : Q) : (x <= y)%Q -> (Float.rnd x <= Float.rnd y)%Q.
Proof. apply round_to_mono. lia. Qed.

Lemma rnd_0 : Float.rnd 0 = 0%Q.
Proof. apply round_to_0. reflexivity. Qed.

Lemma rnd_nonneg (x : Q) : (0 <= x)%Q -> (0 <= Float.rnd x)%Q.
Proof. apply round_to_nonneg. Qed.

Lemma rnd_opp (x : Q) : Float.rnd (- x) = (- Float.rnd x)%Q.
Proof. apply round_to_opp. Qed.

Lemma rnd_idem (x : Q) : Float.rnd (Float.rnd x) = Float.rnd x.
Proof. apply round_to_idem. lia. Qed.

Lemma rnd_representable (x : Q) : Float.representable (Float.rnd x).
Proof. unfold Float.representable. now rewrite rnd_idem. Qed.

Lemma rnd_exact (m e : Z) :
  Z.abs m < 2 ^ 53 -> -1074 <= e ->
  (Float.rnd (inject_Z m * Float.pow2 e) == inject_Z m * Float.pow2 e)%Q.
Proof. intros Hm He. apply (round_to_exact 53 (-1074) ltac:(lia) _ m e); [reflexivity | |]; assumption. Qed.

Lemma rnd_int (z : Z) :
  Z.abs z <= 2 ^ 53 -> (Float.rnd (inject_Z z) == inject_Z z)%Q.
Proof. intros Hz. apply round_to_int; [lia | lia | exact Hz]. Qed.

Lemma of_int_exact (z : Z) :
  Z.abs z <= 2 ^ 53 -> (Float.of_int z == inject_Z z)%Q.
Proof. apply rnd_int. Qed.

Lemma rnd_pow2 (e : Z) : -1074 <= e -> (Float.rnd (Float.pow2 e) == Float.pow2 e)%Q.
Proof. intros He. apply round_to_pow2; [lia | exact He]. Qed.

(** Rounding never crosses a binary64 number. *)
Lemma rnd_le (x y : Q) :
  (x <= y)%Q -> Float.representable y -> (Float.rnd x <= y)%Q.
Proof.
  intros Hxy Hy. unfold Float.representable in Hy.
  pose proof (rnd_mono x y Hxy). lra.
Qed.

Lemma rnd_ge (x y : Q) :
  (y <= x)%Q -> Float.representable y -> (y <= Float.rnd x)%Q.
Proof.
  intros Hxy Hy. unfold Float.representable in Hy.
  pose proof (rnd_mono y x Hxy). lra.
Qed.

Lemma representable_0 : Float.representable 0.
Proof. unfold Float.representable. now rewrite rnd_0. Qed.

Lemma representable_int (z : Z) :
  Z.abs z <= 2 ^ 53 -> Float.representable (inject_Z z).
Proof. apply rnd_int. Qed.

Lemma representable_comp (x y : Q) :
  (x == y)%Q -> Float.representable x -> Float.representable y.
Proof.
  unfold Float.representable. intros Hxy Hx.
  rewrite <- (rnd_comp x y Hxy). lra.
Qed.

(** Below [2 ** k] a rounding moves a number by at most [2 ** (k - 54)]. *)
Lemma rnd_near (x : Q) (k : Z) :
  -1021 <= k -> (Qabs x < Float.pow2 k)%Q ->
  (Qabs (Float.rnd x - x) <= Float.pow2 (k - 54))%Q.
Proof.
  intros Hk Hx. destruct (Qeq_dec x 0) as [Hz|Hnz].
  { rewrite (rnd_comp x 0 Hz), rnd_0.
    assert (H0 : (0 - x == 0)%Q) by lra. rewrite H0. cbn [Qabs Z.abs Qnum Qden].
    apply Qlt_le_weak, pow2_pos. }
  eapply Qle_trans; [apply (round_to_error 53 (-1074))|].
  assert (Hu : Float.uexp 53 (-1074) x <= k - 53).
  { unfold Float.uexp. pose proof (Qabs_pos_nz x Hnz) as Hpos.
    destruct (ilog2_spec (Qabs x) Hpos) as [Hl _].
    assert (Float.ilog2 (Qabs x) < k) by (apply pow2_lt_inv; lra). lia. }
  apply Qle_trans with ((1 # 2) * Float.pow2 (k - 53))%Q.
  - apply Qmult_le_l; [reflexivity|]. now apply pow2_le.
  - replace (k - 53) with ((k - 54) + 1) by lia. rewrite pow2_succ. lra.
Qed.

Lemma rnd32_comp (x y : Q) : (x == y)%Q -> Float.rnd32 x = Float.rnd32 y.
Proof. apply round_to_comp. Qed.

#[global] Instance rnd32_proper : Proper (Qeq ==> Qeq) Float.rnd32.
Proof. intros x y H. now rewrite (rnd32_comp x y H). Qed.

Lemma rnd32_mono (x y : Q) : (x <= y)%Q -> (Float.rnd32 x <= Float.rnd32 y)%Q.
Proof. apply round_to_mono. lia. Qed.

Lemma rnd32_opp (x : Q) : Float.rnd32 (- x) = (- Float.rnd32 x)%Q.
Proof. apply round_to_opp. Qed.

Lemma rnd32_idem (x : Q) : Float.rnd32 (Float.rnd32 x) = Float.rnd32 x.
Proof. apply round_to_idem. lia. Qed.

Lemma rnd32_int (z : Z) :
  Z.abs z <= 2 ^ 24 -> (Float.rnd32 (inject_Z z) == inject_Z z)%Q.
Proof. intros Hz. apply round_to_int; [lia | lia | exact Hz]. Qed.

(** ** Comparisons, maxima and the stable sort *)

Lemma Qltb_lt (a b : Q) : Py.Qltb a b = true <-> (a < b)%Q.
Proof.
  unfold Py.Qltb. rewrite negb_true_iff.
  destruct (Qle_bool b a) eqn:E.
  - apply Qle_bool_iff in E. split; [discriminate | intros; lra].
  - split; [intros _ | reflexivity].
    apply Qnot_le_lt. intros Hle. apply Qle_bool_iff in Hle. congruence.
Qed.

Lemma Qltb_ge (a b : Q) : Py.Qltb a b = false <-> (b <= a)%Q.
Proof.
  pose proof (Qltb_lt a b) as H. destruct (Py.Qltb a b).
  - split; [discriminate|]. intros Hle. apply proj1 in H. specialize (H eq_refl). lra.
  - split; [intros _ | reflexivity].
    apply Qnot_lt_le. intros Hlt. apply H in Hlt. discriminate.
Qed.

Lemma max_of_ge_init (x : Q) (xs : list Q) : (x <= Py.max_of x xs)%Q.
Proof.
  unfold Py.max_of. revert x; induction xs as [|y ys IH]; intros x; simpl; [lra|].
  destruct (Py.Qltb x y) eqn:E.
  - apply Qltb_lt in E. specialize (IH y). lra.
  - apply IH.
Qed.

Lemma max_of_ge (x : Q) (xs : list Q) (y : Q) :
  In y (x :: xs) -> (y <= Py.max_of x xs)%Q.
Proof.
  revert x; induction xs as [|z zs IH]; intros x [<-|Hin].
  - apply max_of_ge_init.
  - destruct Hin.
  - apply max_of_ge_init.
  - unfold Py.max_of in *. simpl. destruct (Py.Qltb x z) eqn:E.
    + apply IH. destruct Hin as [<-|Hin]; [now left | now right].
    + apply Qltb_ge in E. destruct Hin as [<-|Hin].
      * pose proof (max_of_ge_init x zs) as Hx. unfold Py.max_of in Hx. lra.
      * apply IH. now right.
Qed.

Lemma insert_by_start_perm (n : note) (l : list note) :
  insert_by_start n l ≡ₚ n :: l.
Proof.
  induction l as [|m ms IH]; simpl; [reflexivity|].
  destruct (Py.Qltb (start m) (start n)); [|reflexivity].
  rewrite IH. apply Permutation_swap.
Qed.

Lemma sort_by_start_perm (l : list note) : sort_by_start l ≡ₚ l.
Proof.
  induction l as [|n ns IH]; simpl; [reflexivity|].
  rewrite insert_by_start_perm. now rewrite IH.
Qed.

Lemma sort_by_start_In (l : list note) (n : note) :
  In n (sort_by_start l) <-> In n l.
Proof.
  rewrite <- !list_elem_of_In. now rewrite sort_by_start_perm.
Qed.

Lemma insert_by_start_sorted (n : note) (l : list note) :
  sorted_by_start l -> sorted_by_start (insert_by_start n l).
Proof.
  unfold sorted_by_start.
  induction l as [|m ms IH]; simpl; intros Hs.
  - repeat constructor.
  - inversion Hs as [|? ? Hms Hall]; subst.
    destruct (Py.Qltb (start m) (start n)) eqn:E.
    + apply Qltb_lt in E. constructor; [now apply IH|].
      apply Forall_forall. intros x Hx.
      rewrite insert_by_start_perm in Hx. apply elem_of_cons in Hx.
      destruct Hx as [->|Hx]; [lra|].
      rewrite Forall_forall in Hall. now apply Hall.
    + apply Qltb_ge in E. constructor; [exact Hs|].
      constructor; [exact E|].
      eapply Forall_impl; [exact Hall|]. simpl. intros; lra.
Qed.

Lemma sort_by_start_sorted (l : list note) : sorted_by_start (sort_by_start l).
Proof.
  induction l as [|n ns IH]; simpl; [constructor|].
  now apply insert_by_start_sorted.
Qed.


(** ** melody_enhancer.py: [smooth_melody] *)

Section Smooth.
Import Enhancer.

Lemma smooth_from_times prev rest intensity root scale :
  map start (smooth_from prev rest intensity root scale) = map start rest
  /\ map end_ (smooth_from prev rest intensity root scale) = map end_ rest.
Proof.
  revert prev; induction rest as [|n ns IH]; intros prev; [now split|].
  cbn [smooth_from map].
  match goal with |- context [smooth_from ?p ns] => destruct (IH p) as [-> ->] end.
  now split.
Qed.

Lemma smooth_melody_times notes intensity root scale :
  map start (smooth_melody notes intensity root scale) = map start notes
  /\ map end_ (smooth_melody notes intensity root scale) = map end_ notes.
Proof.
  unfold smooth_melody.
  destruct (length notes <? 2)%nat; [now split|].
  destruct notes as [|first rest]; [now split|].
  cbn [map]. destruct (smooth_from_times (midi first) rest intensity root scale) as [-> ->].
  now split.
Qed.

(** C10. The smooth enhancer returns as many notes as it is given, and the
    i-th output note has the start time and the end time of the i-th input
    note: only pitches can change. *)
Theorem smooth_melody_keeps_times (notes : list note) (intensity : Q)
    (root scale : string) :
  length (smooth_melody notes intensity root scale) = length notes
  /\ forall (i : nat) (n : note),
       notes !! i = Some n ->
       exists m, smooth_melody notes intensity root scale !! i = Some m
                 /\ start m = start n /\ end_ m = end_ n.
Proof.
  destruct (smooth_melody_times notes intensity root scale) as [Hs He].
  assert (Hlen : length (smooth_melody notes intensity root scale) = length notes).
  { rewrite <- (length_map start), Hs. apply length_map. }
  split; [exact Hlen|].
  intros i n Hn.
  destruct (lookup_lt_is_Some_2 (smooth_melody notes intensity root scale) i) as [m Hm].
  { rewrite Hlen. eapply lookup_lt_Some; eassumption. }
  exists m. split; [exact Hm|]. split.
  - apply (f_equal (fun l => l !! i)) in Hs. rewrite !list_lookup_fmap, Hm, Hn in Hs.
    simpl in Hs. congruence.
  - apply (f_equal (fun l => l !! i)) in He. rewrite !list_lookup_fmap, Hm, Hn in He.
    simpl in He. congruence.
Qed.

End Smooth.

(** The theorem on three notes with two large leaps, at index 1. *)
Lemma smooth_melody_keeps_times_witness :
  exists m,
    (Enhancer.smooth_melody [Note 60 0 0.5; Note 72 0.5 1; Note 50 1 2] 0.5
       "C" "minor" !! 1%nat = Some m
     /\ start m = 0.5 /\ end_ m = 1)%Q.
Proof.
  exact (proj2 (smooth_melody_keeps_times
                  [Note 60 0 0.5; Note 72 0.5 1; Note 50 1 2]%Q 0.5%Q "C" "minor")
               1%nat (Note 72 0.5 1)%Q eq_refl).
Defined.

(** ** melody_enhancer.py: [afro_vibe_melody] *)

Section AfroVibe.
Import Enhancer.
Context {G : Type} {rs : RandomState G}.

Lemma afro_emit_head new_note n rest intensity (g : G) :
  exists tl g', afro_emit new_note n rest intensity g = (new_note :: tl, g').
Proof.
  unfold afro_emit. destruct rest as [|next ?]; [now eauto|].
  destruct (Py.Qltb 0.6 intensity); [|now eauto].
  destruct (Py.Qltb 0.2 _); [|now eauto].
  destruct (random g) as [r g']. destruct (Py.Qltb r 0.3); now eauto.
Qed.





End AfroVibe.



(** ** melody_enhancer.py: [extend_melody_duration] *)

Section Extend.
Import Enhancer.
Context {G : Type} {rs : RandomState G}.

Lemma extend_loop_total notes (D min_duration : Q) :
  (0 < D)%Q ->
  forall (fuel : nat) (offset : Q) (extended : list note) (g : G),
    (min_duration - offset <= inject_Z (Z.of_nat fuel) * D)%Q ->
    exists out g',
      extend_loop fuel notes D min_duration offset extended g = Some (out, g')
      /\ forall m, In m extended -> In m out.
Proof.
  intros HD. induction fuel as [|fuel IH]; intros offset extended g Hfuel.
  - cbn [extend_loop].
    destruct (Py.Qltb offset min_duration) eqn:E.
    + apply Qltb_lt in E. change (inject_Z (Z.of_nat 0)) with 0%Q in Hfuel. lra.
    + now eauto.
  - cbn [extend_loop].
    destruct (Py.Qltb offset min_duration) eqn:E; [|now eauto].
    destruct (vary_notes notes offset g) as [copies g1].
    destruct (IH (offset + D)%Q (extended ++ copies) g1) as (out & g' & Hout & Hin).
    + rewrite Nat2Z.inj_succ, <- Z.add_1_r, inject_Z_plus in Hfuel.
      change (inject_Z 1) with 1%Q in Hfuel. lra.
    + exists out, g'. split; [exact Hout|].
      intros m Hm. apply Hin, in_or_app. now left.
Qed.

Lemma enough_fuel (D min_duration : Q) :
  (0 < D)%Q ->
  exists fuel0 : nat, forall fuel : nat, (fuel0 <= fuel)%nat ->
    (min_duration - D <= inject_Z (Z.of_nat fuel) * D)%Q.
Proof.
  intros HD. exists (Z.to_nat (Qceiling ((min_duration - D) / D))).
  intros fuel Hfuel.
  pose proof (Qle_ceiling ((min_duration - D) / D)) as Hc.
  assert (Hz : (Qceiling ((min_duration - D) / D) <= Z.of_nat fuel)%Z) by lia.
  rewrite Zle_Qle in Hz.
  assert (Hq : ((min_duration - D) / D <= inject_Z (Z.of_nat fuel))%Q) by lra.
  apply (Qmult_le_compat_r _ _ D) in Hq; [|lra].
  assert (Hs : ((min_duration - D) / D * D == min_duration - D)%Q) by (field; lra).
  lra.
Qed.

(** C2 (amended).  For a non-empty note list whose total duration (its
    maximal end time) already reaches [min_duration], the output is the
    input itself, so its total duration is at least [min_duration] and its
    notes may start at or after [min_duration].  For a non-empty note list
    whose total duration is positive and below [min_duration], the
    repetition loop ends, every output note starts before [min_duration],
    and every input note that starts before [min_duration] is kept. *)
Theorem extend_melody_duration_spec (n : note) (ns : list note)
    (min_duration : Q) (g : G) :
  let notes := n :: ns in
  let current_duration := Py.max_of (end_ n) (map end_ ns) in
  ((min_duration <= current_duration)%Q ->
     forall fuel : nat,
       extend_melody_duration fuel notes min_duration g = Some (notes, g))
  /\ ((0 < current_duration)%Q /\ (current_duration < min_duration)%Q ->
      exists fuel0 : nat, forall fuel : nat, (fuel0 <= fuel)%nat ->
        exists out g',
          extend_melody_duration fuel notes min_duration g = Some (out, g')
          /\ Forall (fun m => (start m < min_duration)%Q) out
          /\ forall m, In m notes -> (start m < min_duration)%Q -> In m out).
Proof.
  cbv zeta. split.
  - intros Hlong fuel. cbn [extend_melody_duration].
    apply Qle_bool_iff in Hlong. now rewrite Hlong.
  - intros [Hpos Hshort].
    destruct (enough_fuel _ min_duration Hpos) as [fuel0 Hfuel0].
    exists fuel0. intros fuel Hfuel.
    cbn [extend_melody_duration].
    assert (Hb : Qle_bool min_duration (Py.max_of (end_ n) (map end_ ns)) = false).
    { destruct (Qle_bool _ _) eqn:E; [|reflexivity].
      apply Qle_bool_iff in E. lra. }
    rewrite Hb.
    destruct (extend_loop_total (n :: ns) _ min_duration Hpos fuel
                (Py.max_of (end_ n) (map end_ ns)) (n :: ns) g (Hfuel0 fuel Hfuel))
      as (extended & g' & -> & Hkeep).
    eexists _, g'. split; [reflexivity|]. split.
    + apply Forall_forall. intros m Hm.
      rewrite sort_by_start_perm in Hm.
      apply list_elem_of_filter in Hm as [Hm _].
      apply Is_true_true, Qltb_lt in Hm. exact Hm.
    + intros m Hm Hstart. apply sort_by_start_In, list_elem_of_In.
      apply list_elem_of_filter. split.
      * apply Is_true_true, Qltb_lt. exact Hstart.
      * apply list_elem_of_In, Hkeep, Hm.
Qed.

End Extend.

(** The theorem on a melody of 16 s (kept as it is) and on one of 10 s
    (extended), for a minimum of 15 s. *)
Lemma extend_melody_duration_spec_witness :
  (Enhancer.extend_melody_duration (rs := constant_draws 0.5 0) 3
     [Note 60 0 16] 15 tt = Some ([Note 60 0 16], tt))%Q
  /\ exists fuel0 : nat, forall fuel : nat, (fuel0 <= fuel)%nat ->
       exists out g',
         (Enhancer.extend_melody_duration (rs := constant_draws 0.5 0) fuel
            [Note 60 0 1; Note 62 9 10] 15 tt = Some (out, g')
          /\ Forall (fun m => start m < 15) out
          /\ forall m, In m [Note 60 0 1; Note 62 9 10] -> start m < 15 -> In m out)%Q.
Proof.
  split.
  - refine (proj1 (extend_melody_duration_spec (rs := constant_draws 0.5 0)
                     (Note 60 0 16)%Q [] 15%Q tt) _ 3%nat).
    vm_compute. discriminate.
  - refine (proj2 (extend_melody_duration_spec (rs := constant_draws 0.5 0)
                     (Note 60 0 1)%Q [Note 62 9 10]%Q 15%Q tt) _).
    split; reflexivity.
Defined.

(** C2 as stated fails on both counts.  A melody that is already long
    enough is returned as it is, with its notes that start at or after
    [min_duration]; and the final trimming, which drops the copies that start
    at or after [min_duration], can leave a total duration below it: the
    10 s melody below ends at 11 s once extended for a minimum of 15 s. *)
Lemma extend_melody_duration_misses_minimum :
  (Enhancer.extend_melody_duration (rs := constant_draws 0.5 0) 3
     [Note 60 16 17] 15 tt = Some ([Note 60 16 17], tt)
   /\ ~ Forall (fun m => start m < 15) [Note 60 16 17])%Q
  /\ (Enhancer.extend_melody_duration (rs := constant_draws 0.5 0) 3
        [Note 60 0 1; Note 62 9 10] 15 tt
      = Some ([Note 60 0 1; Note 62 9 10; Note 60 (0 + 10) (1 + 10)], tt)
      /\ ~ 15 <= Py.max_of 1 [10; 1 + 10])%Q.
Proof.
  split; split.
  - vm_compute. reflexivity.
  - intros Hall. apply Forall_cons_1 in Hall as [Hlt _]. vm_compute in Hlt. discriminate.
  - vm_compute. reflexivity.
  - vm_compute. intros Hle. now apply Hle.
Qed.

(** ** melody_generator.py: [notes_to_midi] *)

Section Midi.
Import Generator.

Lemma note_events_time notes tps : forall last_tick track,
  note_events notes tps last_tick = Ok track ->
  Forall (fun m => 0 <= time m) track.
Proof.
  induction notes as [|n ns IH]; intros last_tick track; cbn [note_events].
  - intros [= <-]. constructor.
  - destruct (check_data_byte (midi n)); [|discriminate].
    destruct (note_events ns tps _) as [evs|e] eqn:E; [|discriminate].
    intros [= <-]. repeat constructor; cbn [time]; try lia.
    eapply IH; eassumption.
Qed.

Lemma note_events_raise notes tps : forall last_tick e,
  note_events notes tps last_tick = Raise e ->
  exists n, In n notes /\ check_data_byte (midi n) = false.
Proof.
  induction notes as [|n ns IH]; intros last_tick e; cbn [note_events]; [discriminate|].
  destruct (check_data_byte (midi n)) eqn:Hn.
  - destruct (note_events ns tps _) as [evs|e'] eqn:E; [discriminate|].
    intros _. destruct (IH _ _ E) as (m & Hm & Hbad).
    exists m. split; [now right | exact Hbad].
  - intros _. exists n. split; [now left | exact Hn].
Qed.

Lemma tick_positions_sorted track : forall now,
  Forall (fun m => 0 <= time m) track ->
  Forall (fun t => now <= t) (tick_positions now track)
  /\ StronglySorted Z.le (tick_positions now track).
Proof.
  induction track as [|m ms IH]; intros now Hall; cbn [tick_positions].
  - split; constructor.
  - apply Forall_cons_1 in Hall as [Hm Hms].
    destruct (IH (now + time m) Hms) as [Hge Hs]. split.
    + constructor; [lia|]. eapply Forall_impl; [exact Hge|]. simpl; intros; lia.
    + constructor; assumption.
Qed.

(** C4.  Whatever the note list, overlapping notes included, every message
    of the track built by the symbolic renderer has a non-negative delta
    time, so the tick positions of successive messages never decrease.  The
    track is built unless the tempo is zero or outside what a tempo message
    can hold, or a pitch is not a MIDI data byte. *)
Theorem midi_track_monotone (notes : list note) (tempo_bpm : Q) :
  match midi_track notes tempo_bpm with
  | Ok track =>
      Forall (fun m => 0 <= time m) track
      /\ StronglySorted Z.le (tick_positions 0 track)
  | Raise _ =>
      (tempo_bpm == 0)%Q
      \/ check_tempo (bpm2tempo tempo_bpm) = false
      \/ exists n, In n notes /\ check_data_byte (midi n) = false
  end.
Proof.
  unfold midi_track.
  destruct (Qeq_bool tempo_bpm 0) eqn:Hz.
  { left. now apply Qeq_bool_iff. }
  destruct (check_tempo (bpm2tempo tempo_bpm)) eqn:Ht; [|right; now left].
  destruct (note_events _ _ 0) as [evs|e] eqn:E.
  - assert (Hall : Forall (fun m => 0 <= time m) (set_tempo (bpm2tempo tempo_bpm) 0 :: evs)).
    { constructor; [cbn; lia|]. eapply note_events_time; eassumption. }
    split; [exact Hall|]. now apply tick_positions_sorted.
  - right; right. destruct (note_events_raise _ _ _ _ E) as (n & Hn & Hbad).
    exists n. split; [|exact Hbad]. now apply sort_by_start_In.
Qed.

(** The track of three overlapping notes at 120 BPM. *)
Example midi_track_overlap :
  midi_track [Note 60 0 0.5; Note 64 0.25 1; Note 67 0.1 0.2]%Q 120
  = Ok [set_tempo 500000 0; note_on 60 90 0; note_off 60 0 480;
        note_on 67 90 0; note_off 67 0 96; note_on 64 90 48;
        note_off 64 0 720].
Proof. vm_compute. reflexivity. Qed.

End Midi.

(** ** Truncation to an integer *)

Lemma int_nonneg (x : Q) :
  (0 <= x)%Q -> Py.int x = Qfloor x.
Proof. intros Hx. unfold Py.int. apply Qle_bool_iff in Hx. now rewrite Hx. Qed.

Lemma int_neg (x : Q) :
  (x < 0)%Q -> Py.int x = Qceiling x.
Proof.
  intros Hx. unfold Py.int. destruct (Qle_bool 0 x) eqn:E; [|reflexivity].
  apply Qle_bool_iff in E. lra.
Qed.

Lemma int_comp (x y : Q) : (x == y)%Q -> Py.int x = Py.int y.
Proof.
  intros Hxy. destruct (Qlt_le_dec x 0) as [Hx|Hx].
  - rewrite !int_neg by lra. now apply Qceiling_comp.
  - rewrite !int_nonneg by lra. now apply Qfloor_comp.
Qed.

Lemma int_inject_Z (z : Z) : Py.int (inject_Z z) = z.
Proof.
  unfold Py.int. destruct (Qle_bool 0 (inject_Z z)); [apply Qfloor_Z | apply Qceiling_Z].
Qed.


Lemma int_bounds (x : Q) :
  (0 <= x)%Q ->
  0 <= Py.int x /\ (inject_Z (Py.int x) <= x)%Q /\ (x < inject_Z (Py.int x) + 1)%Q.
Proof.
  intros Hx. rewrite int_nonneg by exact Hx.
  pose proof (Qfloor_le x) as Hl. pose proof (Qlt_floor x) as Hu.
  rewrite inject_Z_plus in Hu. change (inject_Z 1) with 1%Q in Hu.
  repeat split; try assumption.
  change 0 with (Qfloor 0). now apply Qfloor_resp_le.
Qed.


(** ** melody_generator.py: [notes_to_wav] *)

Section Wav.
Import Generator.
Context {G : Type}.
Variable midi_to_freq : Z -> Q.
Variable synthesize : instrument_config -> Q -> Q -> Z -> G -> nat -> Q.
Variable after_synthesis : instrument_config -> G -> G.

Lemma clip_index_inside (n i : Z) : 0 <= i <= n -> clip_index n i = i.
Proof.
  intros Hi. unfold clip_index.
  destruct (i <? 0) eqn:E; [apply Z.ltb_lt in E; lia | lia].
Qed.









(** A rendering that succeeds has written a WAV file at [out_path], and
    nothing but that file. *)
Lemma notes_to_wav_writes (notes : list note) (out_path : string) (sr : Z)
    (instrument : string) (g g' : G) (fs fs' : filesystem) :
  notes_to_wav midi_to_freq synthesize after_synthesis notes out_path sr
    instrument g fs = (Ok tt, g', fs') ->
  exists frames, fs' = <[out_path := WavFile 1 2 sr frames]> fs.
Proof.
  unfold Generator.notes_to_wav. destruct notes as [|n ns]; [discriminate|].
  destruct (_ <? 0); [discriminate|].
  destruct (mix_notes _ _ _ _ _ _ _ _) as [[audio|e] g1]; [|discriminate].
  destruct (map Qabs audio) as [|a rest]; [discriminate|].
  destruct (sr <=? 0); [discriminate|].
  intros [= _ <-]. eexists; reflexivity.
Qed.

(** C8.  Rendering an empty note list raises the explicit error at once:
    the generator and the file system are returned as they were, so nothing
    is opened or written at [out_path], whereas every rendering that succeeds
    leaves a WAV file there. *)
Theorem notes_to_wav_empty (out_path : string) (sr : Z) (instrument : string)
    (g : G) (fs : filesystem) :
  (let '(outcome, g', fs') :=
     notes_to_wav midi_to_freq synthesize after_synthesis [] out_path sr
       instrument g fs in
   outcome = Raise (ValueError "No notes to render")
   /\ g' = g /\ fs' = fs /\ fs' !! out_path = fs !! out_path)
  /\ (forall notes g' fs',
        notes_to_wav midi_to_freq synthesize after_synthesis notes out_path sr
          instrument g fs = (Ok tt, g', fs') ->
        notes <> [] /\ exists frames,
          fs' !! out_path = Some (WavFile 1 2 sr frames)).
Proof.
  split.
  - cbn [Generator.notes_to_wav]. repeat split; reflexivity.
  - intros notes g' fs' Hrun. split.
    + intros ->. discriminate Hrun.
    + destruct (notes_to_wav_writes _ _ _ _ _ _ _ _ Hrun) as [frames ->].
      exists frames. apply lookup_insert_eq.
Qed.

End Wav.



(** The theorem on a one-second note at 4 Hz: the rendering succeeds and
    the file is there. *)
Lemma notes_to_wav_empty_witness :
  [Note 60 0 1]%Q <> []
  /\ exists frames,
       (Generator.notes_to_wav flat_pitch square_wave no_draw
          [Note 60 0 1]%Q "out.wav" 4 "piano" tt ∅).2 !! "out.wav"
       = Some (Generator.WavFile 1 2 4 frames).
Proof.
  refine (proj2 (notes_to_wav_empty flat_pitch square_wave no_draw
                   "out.wav" 4 "piano" tt ∅) [Note 60 0 1]%Q tt _ _).
  vm_compute. reflexivity.
Defined.

(** ** Rounding to the nearest integer *)



(** ** rhythm_processor.py: [quantize_rhythm] *)

Section Idempotence.
Import Rhythm.
Context {G : Type} {rs : RandomState G}.
Variable g : Q.
Hypothesis g_pos : (0 < g)%Q.
Hypothesis g_floor : (0.05 <= g)%Q.














End Idempotence.



Section QuantizeTwice.
Import Rhythm.
Context {G : Type} {rs : RandomState G}.



End QuantizeTwice.



(** ** rhythm_processor.py: [detect_tempo] *)

(** The four inter-onset intervals of 0.5 s fall in one bin of the
    histogram, whose left edge is 0.5 itself: the range [0.5, 0.5] is widened
    to [0, 1], cut in 20 bins, and 0.5 opens bin 10. *)
Example histogram_of_equal_intervals :
  let '(hist, bins) := Py.np_histogram [0.5; 0.5; 0.5; 0.5]%Q 20 in
  Py.np_argmax hist = 10%nat
  /\ hist !! 10%nat = Some 4
  /\ exists edge, bins !! 10%nat = Some edge /\ (edge == 0.5)%Q.
Proof.
  vm_compute. split; [reflexivity|]. split; [reflexivity|].
  eexists; split; reflexivity.
Qed.

(** C6.  For five notes that start at 0.0, 0.5, 1.0, 1.5 and 2.0 seconds,
    whatever their pitches and ends, the tempo estimator returns 120 BPM. *)
Theorem detect_tempo_half_second_onsets (m1 m2 m3 m4 m5 : Z) (e1 e2 e3 e4 e5 : Q) :
  Rhythm.detect_tempo
    [Note m1 0.0 e1; Note m2 0.5 e2; Note m3 1.0 e3; Note m4 1.5 e4; Note m5 2.0 e5]%Q
  = 120%Q.
Proof. vm_compute. reflexivity. Qed.

(** * Further properties of the pipeline *)

(** ** music_theory.py: more on [quantize_to_scale] *)

Lemma min_by_fold_le {A} (k : A -> Z) (xs : list A) (x : A) :
  let r := fold_left (fun best d => if k d <? k best then d else best) xs x in
  k r <= k x /\ forall y, In y xs -> k r <= k y.
Proof.
  revert x; induction xs as [|z zs IH]; intros x; cbn [fold_left].
  - split; [lia | intros y []].
  - destruct (IH (if k z <? k x then z else x)) as [Hinit Hall].
    destruct (k z <? k x) eqn:E.
    + apply Z.ltb_lt in E. split; [lia|].
      intros y [<-|Hy]; [exact Hinit | now apply Hall].
    + apply Z.ltb_ge in E. split; [exact Hinit|].
      intros y [<-|Hy]; [lia | now apply Hall].
Qed.

Lemma min_by_le {A} (k : A -> Z) (l : list A) (x : A) :
  Py.min_by k l = Some x -> forall y, In y l -> k x <= k y.
Proof.
  destruct l as [|z zs]; [discriminate|]. cbn [Py.min_by]. intros [= <-] y Hy.
  destruct (min_by_fold_le k zs z) as [Hinit Hall].
  destruct Hy as [<-|Hy]; [exact Hinit | now apply Hall].
Qed.

Section Nearest.
Import MusicTheory.

Lemma closest_interval_nearest midi_note root scale (d : Z) :
  In d (target_scale scale) ->
  Z.abs (closest_interval midi_note root scale
         - (midi_note mod 12 - root_offset root) mod 12)
  <= Z.abs (d - (midi_note mod 12 - root_offset root) mod 12).
Proof.
  intros Hd. unfold closest_interval.
  destruct (target_scale_inv scale) as [Hne _].
  destruct (min_by_nonempty
    (fun d => Z.abs (d - (midi_note mod 12 - root_offset root) mod 12)) _ Hne)
    as [x Hx].
  rewrite Hx. exact (min_by_le _ _ _ Hx d Hd).
Qed.

Lemma quantized_interval midi_note root scale :
  (quantize_to_scale midi_note root scale - root_offset root) mod 12
  = closest_interval midi_note root scale.
Proof.
  rewrite quantize_to_scale_eq.
  pose proof (closest_interval_range midi_note root scale) as Hc.
  pose proof (root_offset_range root) as Hr.
  set (c := closest_interval midi_note root scale) in *.
  set (r := root_offset root) in *.
  replace (midi_note / 12 * 12 + (r + c) mod 12 - r)
    with (((r + c) mod 12 - r) + (midi_note / 12) * 12) by ring.
  rewrite Z.mod_add by lia.
  rewrite Zminus_mod, Zmod_mod, <- Zminus_mod.
  replace (r + c - r) with c by ring.
  apply Z.mod_small; lia.
Qed.

(** The quantizer picks a nearest degree: measured on root-relative pitch
    classes 0..11, no interval of the target scale is closer to the input
    than the interval of the result. *)
Theorem quantize_to_scale_nearest (midi_note : Z) (root scale : string) (d : Z) :
  In d (target_scale scale) ->
  Z.abs ((quantize_to_scale midi_note root scale - root_offset root) mod 12
         - (midi_note - root_offset root) mod 12)
  <= Z.abs (d - (midi_note - root_offset root) mod 12).
Proof.
  intros Hd. rewrite quantized_interval.
  rewrite <- (Zminus_mod_idemp_l midi_note).
  apply closest_interval_nearest. exact Hd.
Qed.

Lemma quantize_to_scale_nearest_witness :
  Z.abs ((quantize_to_scale 61 "C" "major" - root_offset "C") mod 12
         - (61 - root_offset "C") mod 12)
  <= Z.abs (4 - (61 - root_offset "C") mod 12).
Proof.
  apply (quantize_to_scale_nearest 61 "C" "major" 4).
  vm_compute. tauto.
Defined.

Lemma quantize_fixed midi_note root scale :
  In ((midi_note - root_offset root) mod 12) (target_scale scale) ->
  quantize_to_scale midi_note root scale = midi_note.
Proof.
  intros Hin.
  assert (Hin' : In ((midi_note mod 12 - root_offset root) mod 12)
                     (target_scale scale)).
  { rewrite Zminus_mod_idemp_l. exact Hin. }
  pose proof (closest_interval_nearest midi_note root scale _ Hin') as Hle.
  rewrite Z.sub_diag in Hle. change (Z.abs 0) with 0 in Hle.
  assert (Hc : closest_interval midi_note root scale
               = (midi_note - root_offset root) mod 12).
  { rewrite <- (Zminus_mod_idemp_l midi_note). lia. }
  rewrite quantize_to_scale_eq, Hc.
  pose proof (root_offset_range root) as Hr.
  rewrite Zplus_mod_idemp_r.
  replace (root_offset root + (midi_note - root_offset root)) with midi_note by ring.
  pose proof (Z.div_mod midi_note 12 ltac:(lia)). lia.
Qed.

(** A pitch that already belongs to the key passes through unchanged, and
    so quantizing twice is quantizing once. *)
Theorem quantize_to_scale_idempotent (root scale : string) :
  (forall midi_note : Z,
      In ((midi_note - root_offset root) mod 12) (target_scale scale) ->
      quantize_to_scale midi_note root scale = midi_note)
  /\ (forall midi_note : Z,
        quantize_to_scale (quantize_to_scale midi_note root scale) root scale
        = quantize_to_scale midi_note root scale).
Proof.
  split; [intros midi_note Hin; apply quantize_fixed; exact Hin|].
  intros midi_note. apply quantize_fixed.
  rewrite quantized_interval. apply closest_interval_In.
Qed.

Lemma quantize_to_scale_idempotent_witness :
  quantize_to_scale 67 "C" "major" = 67.
Proof.
  apply (proj1 (quantize_to_scale_idempotent "C" "major") 67).
  vm_compute. tauto.
Defined.

End Nearest.

(** ** music_theory.py: [detect_key] *)

Section DetectKey.
Import MusicTheory Keys.

Lemma fold_candidates {A} (f : nat -> string -> A -> A) (ss : list string)
    (rs : list nat) (init : A) :
  fold_left (fun acc r => fold_left (fun acc s => f r s acc) ss acc) rs init
  = fold_left (fun acc c => f (fst c) (snd c) acc)
      (flat_map (fun r => map (pair r) ss) rs) init.
Proof.
  assert (Hinner : forall r a,
    fold_left (fun acc c => f (fst c) (snd c) acc) (map (pair r) ss) a
    = fold_left (fun acc s => f r s acc) ss a).
  { intros r. induction ss as [|s ss IHs]; intros a; [reflexivity|].
    cbn [map fold_left fst snd]. apply IHs. }
  revert init; induction rs as [|r rs IH]; intros init; [reflexivity|].
  cbn [flat_map fold_left]. rewrite fold_left_app, Hinner. apply IH.
Qed.

Lemma detect_key_fold (n : note) (ns : list note) :
  detect_key (n :: ns)
  = snd (fold_left
           (fun best c => try_key (pitch_class_weights (n :: ns)) (fst c) (snd c) best)
           candidates ((-1)%Q, ("C", "minor"))).
Proof.
  unfold detect_key, candidates.
  now rewrite (fold_candidates (try_key (pitch_class_weights (n :: ns)))).
Qed.

(** What a scan of candidates leaves: the initial pair when no score beats
    the initial one, otherwise the first candidate whose score no other
    candidate beats. *)
Lemma scan_candidates (w : list (Z * Q)) (cs : list (nat * string)) :
  forall (b : Q) (k : string * string),
    let out := fold_left (fun best c => try_key w (fst c) (snd c) best) cs (b, k) in
    (out = (b, k) /\ Forall (fun c => (candidate_score w c <= b)%Q) cs)
    \/ exists pre c post,
         cs = pre ++ c :: post
         /\ out = (candidate_score w c, candidate_key c)
         /\ (b < candidate_score w c)%Q
         /\ Forall (fun x => (candidate_score w x < candidate_score w c)%Q) pre
         /\ Forall (fun x => (candidate_score w x <= candidate_score w c)%Q) post.
Proof.
  induction cs as [|c cs IH]; intros b k; cbn zeta.
  - left. split; [reflexivity | constructor].
  - cbn [fold_left].
    assert (Hstep : try_key w (fst c) (snd c) (b, k)
                    = if Py.Qltb b (candidate_score w c)
                      then (candidate_score w c, candidate_key c) else (b, k))
      by reflexivity.
    rewrite Hstep. clear Hstep.
    destruct (Py.Qltb b (candidate_score w c)) eqn:E.
    + apply Qltb_lt in E. right.
      destruct (IH (candidate_score w c) (candidate_key c))
        as [[Hout Hall]|(pre & c2 & post & -> & Hout & Hlt & Hpre & Hpost)].
      * exists [], c, cs.
        split; [reflexivity|]. split; [exact Hout|]. split; [exact E|].
        split; [constructor | exact Hall].
      * exists (c :: pre), c2, post.
        split; [reflexivity|]. split; [exact Hout|]. split; [lra|].
        split; [constructor; [exact Hlt | exact Hpre] | exact Hpost].
    + apply Qltb_ge in E.
      destruct (IH b k)
        as [[Hout Hall]|(pre & c2 & post & -> & Hout & Hlt & Hpre & Hpost)].
      * left. split; [exact Hout | constructor; assumption].
      * right. exists (c :: pre), c2, post.
        split; [reflexivity|]. split; [exact Hout|]. split; [exact Hlt|].
        split; [constructor; [lra | exact Hpre] | exact Hpost].
Qed.

Lemma candidates_spec (c : nat * string) :
  In c candidates <-> (fst c < 12)%nat /\ In (snd c) scales_to_try.
Proof.
  unfold candidates. rewrite in_flat_map. split.
  - intros (r & Hr & Hc). apply in_map_iff in Hc as (s & <- & Hs).
    apply in_seq in Hr. cbn [fst snd]. split; [lia | exact Hs].
  - intros [Hr Hs]. exists (fst c). split; [apply in_seq; lia|].
    apply in_map_iff. exists (snd c). split; [now destruct c | exact Hs].
Qed.

Lemma candidate_key_valid (c : nat * string) :
  In c candidates ->
  In (fst (candidate_key c)) NOTE_NAMES
  /\ In (snd (candidate_key c)) scales_to_try
  /\ is_Some (SCALES !! snd (candidate_key c)).
Proof.
  intros Hc. apply candidates_spec in Hc as [Hr Hs].
  unfold candidate_key. cbn [fst snd]. split; [|split; [exact Hs|]].
  - destruct (lookup_lt_is_Some_2 NOTE_NAMES (fst c) Hr) as [x Hx].
    rewrite Hx. cbn [default]. apply list_elem_of_In.
    eapply list_elem_of_lookup_2; eassumption.
  - unfold scales_to_try in Hs. cbn [In] in Hs.
    repeat (destruct Hs as [<-|Hs]; [vm_compute; eauto|]). destruct Hs.
Qed.

(** The detected key is always a key of the catalogue: its root is one of
    the twelve note names and its scale one of the seven candidate scales, so
    the quantizer takes it without falling back. *)
Theorem detect_key_in_catalogue (notes : list note) :
  In (fst (detect_key notes)) NOTE_NAMES
  /\ In (snd (detect_key notes)) scales_to_try
  /\ is_Some (SCALES !! snd (detect_key notes)).
Proof.
  destruct notes as [|n ns].
  { cbn [detect_key fst snd]. repeat split; vm_compute; eauto 14. }
  rewrite detect_key_fold.
  destruct (scan_candidates (pitch_class_weights (n :: ns)) candidates
              (-1)%Q ("C", "minor"))
    as [[-> _]|(pre & c & post & Hcs & -> & _)].
  - cbn [fst snd]. repeat split; vm_compute; eauto 14.
  - cbn [snd]. apply candidate_key_valid. rewrite Hcs.
    apply in_or_app. right. now left.
Qed.







(** What the detector answers without any weight: the fixed default for an
    empty melody, but the first candidate, C major, for notes of length
    zero. *)
Example detect_key_defaults :
  detect_key [] = ("C", "minor")
  /\ detect_key [Note 69 0 0; Note 61 1 1]%Q = ("C", "major")
  /\ detect_key [Note 60 0 1; Note 64 1 2; Note 67 2 3]%Q = ("C", "major").
Proof. repeat split; vm_compute; reflexivity. Qed.

End DetectKey.

(** ** music_theory.py: [transpose_notes], [get_scale_info] and the display
    groups *)

Section Catalogue.
Import MusicTheory Keys.

Lemma transpose_notes_back (notes : list note) (semitones : Z) :
  Forall (fun n => 0 <= midi n <= 127 /\ 0 <= midi n + semitones <= 127) notes ->
  transpose_notes (transpose_notes notes semitones) (- semitones) = notes.
Proof.
  unfold transpose_notes. induction 1 as [|[m s e] ns [Hm Hs] _ IH]; [reflexivity|].
  cbn [map midi start end_] in *. rewrite IH. f_equal. f_equal. lia.
Qed.

(** Transposition keeps the number of notes and their times and never
    leaves the MIDI range 0..127, pitches being clamped at its ends; going up
    by some semitones and down again restores the melody when no note was
    clamped on the way, and does not when one was. *)
Theorem transpose_notes_range_and_back (notes : list note) (semitones : Z) :
  (map start (transpose_notes notes semitones) = map start notes
   /\ map end_ (transpose_notes notes semitones) = map end_ notes
   /\ Forall (fun n => 0 <= midi n <= 127) (transpose_notes notes semitones))
  /\ (Forall (fun n => 0 <= midi n <= 127 /\ 0 <= midi n + semitones <= 127) notes ->
      transpose_notes (transpose_notes notes semitones) (- semitones) = notes)
  /\ transpose_notes (transpose_notes [Note 120 0 1] 12) (- 12) = [Note 115 0 1].
Proof.
  split; [|split; [apply transpose_notes_back | reflexivity]].
  unfold transpose_notes. induction notes as [|n ns (IHs & IHe & IHr)].
  - repeat split; constructor.
  - cbn [map start end_]. rewrite IHs, IHe. repeat split.
    constructor; [cbn [midi]; lia | exact IHr].
Qed.

Lemma transpose_notes_range_and_back_witness :
  transpose_notes (transpose_notes [Note 60 0 1; Note 100 1 2]%Q 12) (- 12)
  = [Note 60 0 1; Note 100 1 2]%Q.
Proof.
  apply (proj1 (proj2 (transpose_notes_range_and_back
                         [Note 60 0 1; Note 100 1 2]%Q 12))).
  repeat constructor; cbn; lia.
Defined.

Lemma SCALES_sizes (name : string) (l : list Z) :
  SCALES !! name = Some l -> (5 <= length l <= 7)%nat.
Proof.
  intros H; apply elem_of_list_to_map_2 in H.
  change l with (snd (name, l)). revert H. generalize (name, l).
  apply (proj1 (Forall_forall (fun p => (5 <= length (p.2) <= 7)%nat) _)).
  repeat (apply Forall_cons; split; [cbn; lia|]).
  apply Forall_nil; exact I.
Qed.

(** The scale information answers for every name: an unknown name is
    reported as "minor"; the intervals are those the quantizer uses for that
    name, their number is the reported number of notes, between 5 and 7. *)
Theorem get_scale_info_total (scale_name : string) :
  is_Some (SCALES !! name (get_scale_info scale_name))
  /\ (is_Some (SCALES !! scale_name) -> name (get_scale_info scale_name) = scale_name)
  /\ (SCALES !! scale_name = None -> name (get_scale_info scale_name) = "minor")
  /\ intervals (get_scale_info scale_name) = target_scale scale_name
  /\ num_notes (get_scale_info scale_name) = length (target_scale scale_name)
  /\ (5 <= num_notes (get_scale_info scale_name) <= 7)%nat.
Proof.
  unfold get_scale_info, target_scale. cbn [name intervals num_notes].
  destruct (SCALES !! scale_name) as [l|] eqn:E.
  - rewrite E. cbn [default]. repeat split; eauto using SCALES_sizes.
    + discriminate.
    + eapply SCALES_sizes; eassumption.
    + eapply SCALES_sizes; eassumption.
  - destruct (SCALES !! "minor") as [l|] eqn:Em; [|vm_compute in Em; discriminate].
    cbn [default]. repeat split; eauto.
    + intros [? [=]].
    + eapply SCALES_sizes; eassumption.
    + eapply SCALES_sizes; eassumption.
Qed.

Lemma get_scale_info_total_witness :
  name (get_scale_info "blues") = "blues"
  /\ name (get_scale_info "klezmer") = "minor".
Proof.
  split.
  - apply (proj1 (proj2 (get_scale_info_total "blues"))). vm_compute. eauto.
  - apply (proj1 (proj2 (proj2 (get_scale_info_total "klezmer")))).
    vm_compute. reflexivity.
Defined.

(** The display groups list every scale of the catalogue once, and nothing
    but scales of the catalogue. *)
Theorem get_scales_by_category_partition :
  NoDup (concat (map snd get_scales_by_category))
  /\ forall scale_name : string,
       In scale_name (concat (map snd get_scales_by_category))
       <-> is_Some (SCALES !! scale_name).
Proof.
  split.
  - apply (bool_decide_unpack (NoDup (concat (map snd get_scales_by_category)))).
    vm_compute. exact I.
  - intros scale_name. split.
    + revert scale_name. cbn [get_scales_by_category map snd concat app].
      intros scale_name Hin. cbn [In] in Hin.
      repeat (destruct Hin as [<-|Hin]; [vm_compute; eauto|]). destruct Hin.
    + intros [l Hl]. apply elem_of_list_to_map_2 in Hl.
      change scale_name with (fst (scale_name, l)). revert Hl. generalize (scale_name, l).
      apply (proj1 (Forall_forall
        (fun p => In (p.1) (concat (map snd get_scales_by_category))) _)).
      repeat (apply Forall_cons; split; [vm_compute; tauto|]).
      apply Forall_nil; exact I.
Qed.

End Catalogue.

(** ** melody_enhancer.py: [bounce_melody], [trap_run_melody],
    [choir_harmony] *)

Section Bounce.
Import Styles.



End Bounce.

Section TrapRun.
Import MusicTheory Styles.
Context {G : Type} {rs : RandomState G}.

Lemma quantize_in_key (midi_note : Z) (root scale : string) :
  In ((quantize_to_scale midi_note root scale - root_offset root) mod 12)
     (target_scale scale).
Proof. rewrite quantized_interval. apply closest_interval_In. Qed.

Lemma fill_notes_spec (curr next : note) (interval : Z) (gap : Q)
    (root scale : string) :
  3 < interval -> (0 < gap)%Q ->
  (length (fill_notes curr next interval gap root scale) <= 3)%nat
  /\ Forall (fun m =>
       (end_ curr <= start m)%Q /\ (start m < end_ m)%Q
       /\ (end_ m < end_ curr + gap)%Q
       /\ In ((midi m - root_offset root) mod 12) (target_scale scale))
     (fill_notes curr next interval gap root scale).
Proof.
  intros Hi Hg. unfold fill_notes.
  assert (Hk : 2 <= interval / 2) by (apply Z.div_le_lower_bound; lia).
  assert (Hfd : forall k j : Z, 0 <= j -> j + 1 <= k - 1 + 1 -> 0 < k ->
            let fd := (gap / inject_Z (k + 1))%Q in
            (0 <= fd * inject_Z j)%Q /\ (0 < fd * 0.7)%Q
            /\ (fd * inject_Z j + fd * 0.7 < gap)%Q).
  { intros k j Hj Hjk Hk0 fd.
    assert (Hk1 : (0 < inject_Z (k + 1))%Q).
    { change 0%Q with (inject_Z 0). rewrite <- Zlt_Qlt. lia. }
    assert (Hfd0 : (0 < fd)%Q).
    { unfold fd. apply Qlt_shift_div_l; [exact Hk1 | lra]. }
    assert (Hgap : (fd * inject_Z (k + 1) == gap)%Q) by (unfold fd; field; lra).
    assert (Hj0 : (0 <= inject_Z j)%Q).
    { change 0%Q with (inject_Z 0). rewrite <- Zle_Qle. lia. }
    assert (Hjk' : (inject_Z j + 1 <= inject_Z (k + 1) - 1)%Q).
    { change 1%Q with (inject_Z 1). rewrite <- inject_Z_plus.
      unfold Qminus. rewrite <- inject_Z_opp, <- inject_Z_plus, <- Zle_Qle. lia. }
    assert (H1 : (0 <= fd * inject_Z j)%Q) by (apply Qmult_le_0_compat; lra).
    assert (H2 : (fd * (inject_Z j + 1) <= fd * (inject_Z (k + 1) - 1))%Q).
    { apply Qmult_le_l; [exact Hfd0 | exact Hjk']. }
    repeat split; lra. }
  set (k := Z.min 3 (interval / 2)) in *.
  split.
  - rewrite length_map, length_seq. lia.
  - apply Forall_map. apply Forall_forall. intros j Hj.
    apply elem_of_seq in Hj. cbn [midi start end_].
    destruct (Hfd k (Z.of_nat j)) as (H1 & H2 & H3); [lia | lia | lia |].
    cbv zeta in H1, H2, H3.
    split; [lra|]. split; [lra|]. split; [lra|]. apply quantize_in_key.
Qed.

Lemma trap_fill_spec (curr next : note) (intensity : Q) (root scale : string) (g : G) :
  let fills := (trap_fill curr next intensity root scale g).1 in
  (length fills <= 3)%nat
  /\ Forall (fun m =>
       (end_ curr <= start m)%Q /\ (start m < end_ m)%Q /\ (end_ m < start next)%Q
       /\ In ((midi m - root_offset root) mod 12) (target_scale scale))
     fills.
Proof.
  unfold trap_fill.
  destruct (3 <? Z.abs (midi next - midi curr)) eqn:Ei;
    [|cbn; split; [lia | constructor]].
  destruct (random g) as [r g'].
  destruct (Py.Qltb r intensity); [|cbn; split; [lia | constructor]].
  destruct (Py.Qltb 0.15 (start next - end_ curr)) eqn:Eg;
    [|cbn; split; [lia | constructor]].
  apply Z.ltb_lt in Ei. apply Qltb_lt in Eg. cbn [fst].
  destruct (fill_notes_spec curr next _ (start next - end_ curr) root scale Ei
              ltac:(lra)) as [Hlen Hall].
  split; [exact Hlen|].
  eapply Forall_impl; [exact Hall|]. cbn beta.
  intros m (H1 & H2 & H3 & H4).
  split; [exact H1|]. split; [exact H2|]. split; [lra | exact H4].
Qed.

Lemma is_fill_later (n : note) (l : list note) (root scale : string) (m : note) :
  is_fill l root scale m -> is_fill (n :: l) root scale m.
Proof.
  intros (i & curr & next & Hc & Hn & H). exists (S i), curr, next.
  split; [exact Hc|]. split; [exact Hn | exact H].
Qed.

Lemma trap_loop_cons (curr next : note) (rest : list note) (intensity : Q)
    (root scale : string) (g : G) :
  trap_loop (curr :: next :: rest) intensity root scale g
  = let '(fills, g1) := trap_fill curr next intensity root scale g in
    let '(others, g2) := trap_loop (next :: rest) intensity root scale g1 in
    (curr :: fills ++ others, g2).
Proof. reflexivity. Qed.

Lemma trap_loop_spec (intensity : Q) (root scale : string) (l : list note) :
  forall g : G,
    let out := (trap_loop l intensity root scale g).1 in
    l `sublist_of` out
    /\ (length out <= length l + 3 * (length l - 1))%nat
    /\ Forall (fun m => In m l \/ is_fill l root scale m) out.
Proof.
  induction l as [|curr rest IH]; intros g; cbn zeta.
  - cbn. split; [constructor|]. split; [lia | constructor].
  - destruct rest as [|next rest'].
    + cbn. split; [reflexivity|]. split; [lia|].
      constructor; [left; now left | constructor].
    + rewrite trap_loop_cons.
      pose proof (trap_fill_spec curr next intensity root scale g) as [Hlen Hfill].
      destruct (trap_fill curr next intensity root scale g) as [fills g1].
      cbn [fst] in Hlen, Hfill.
      specialize (IH g1). cbv zeta in IH.
      destruct (trap_loop (next :: rest') intensity root scale g1) as [others g2].
      cbn [fst] in *. destruct IH as (Hsub & Hlo & Hall).
      split; [|split].
      * apply sublist_skip. now apply sublist_inserts_l.
      * cbn [length] in *. rewrite length_app. lia.
      * constructor; [left; now left|]. apply Forall_app. split.
        -- eapply Forall_impl; [exact Hfill|]. cbn beta. intros m H.
           right. exists 0%nat, curr, next.
           split; [reflexivity|]. split; [reflexivity | exact H].
        -- eapply Forall_impl; [exact Hall|]. cbn beta.
           intros m [Hin|Hf]; [left; now right | right; now apply is_fill_later].
Qed.

(** The trap-run enhancer only adds notes: the melody is kept, in order,
    with at most three fill notes after each note but the last; every added
    note sits in the gap between the two notes it links (it starts no earlier
    than the first ends and ends before the second starts) and has a pitch of
    the key. *)
Theorem trap_run_melody_fills (notes : list note) (intensity : Q)
    (root scale : string) (g : G) :
  let out := (trap_run_melody notes intensity root scale g).1 in
  notes `sublist_of` out
  /\ (length out <= length notes + 3 * (length notes - 1))%nat
  /\ Forall (fun m => In m notes \/ is_fill notes root scale m) out.
Proof.
  unfold trap_run_melody. destruct (length notes <? 2)%nat.
  - cbn. split; [reflexivity|]. split; [lia|].
    apply Forall_forall. intros m Hm. left. now apply list_elem_of_In.
  - apply trap_loop_spec.
Qed.

(** A run of three notes from C4 to C5, a second apart. *)
Example trap_run_melody_example :
  (trap_run_melody (rs := constant_draws 0 0)
     [Note 60 0 1; Note 72 2 3] 0.7 "C" "minor" tt).1%Q
  = [Note 60 0 1;
     Note 63 (1 + (2 - 1) / 4 * 0) (1 + (2 - 1) / 4 * 0 + (2 - 1) / 4 * 0.7);
     Note 65 (1 + (2 - 1) / 4 * 1) (1 + (2 - 1) / 4 * 1 + (2 - 1) / 4 * 0.7);
     Note 68 (1 + (2 - 1) / 4 * 2) (1 + (2 - 1) / 4 * 2 + (2 - 1) / 4 * 0.7);
     Note 72 2 3]%Q.
Proof. vm_compute. reflexivity. Qed.

End TrapRun.

Section Choir.
Import MusicTheory Enhancer Styles.

Lemma sort_by_start_length (l : list note) : length (sort_by_start l) = length l.
Proof. apply Permutation_length, sort_by_start_perm. Qed.

Lemma choir_harmony_length (notes : list note) (intensity : Q)
    (root scale : string) :
  length (choir_harmony notes intensity root scale)
  = (length notes * (1 + harmony_voices intensity))%nat.
Proof.
  unfold choir_harmony. rewrite sort_by_start_length. unfold harmony_voices.
  induction notes as [|n ns IH]; [reflexivity|].
  cbn [flat_map]. rewrite length_app, IH. clear IH.
  destruct (Py.Qltb 0.3 intensity), (Py.Qltb 0.6 intensity),
    (Py.Qltb 0.8 intensity); cbn [length app]; lia.
Qed.

(** The choir enhancer keeps every note of the melody and adds to each one
    the same number of harmony notes, one for each of the intensity
    thresholds 0.3, 0.6 and 0.8 that is exceeded; the result is in order of
    start time. *)
Theorem choir_harmony_voices (notes : list note) (intensity : Q)
    (root scale : string) :
  (forall n, In n notes -> In n (choir_harmony notes intensity root scale))
  /\ length (choir_harmony notes intensity root scale)
     = (length notes * (1 + harmony_voices intensity))%nat
  /\ sorted_by_start (choir_harmony notes intensity root scale).
Proof.
  unfold choir_harmony. split; [|split].
  - intros n Hn. apply sort_by_start_In, in_flat_map.
    exists n. split; [exact Hn | now left].
  - fold (choir_harmony notes intensity root scale). apply choir_harmony_length.
  - apply sort_by_start_sorted.
Qed.

Lemma choir_harmony_voices_witness :
  In (Note 60 0 1)%Q (choir_harmony [Note 60 0 1; Note 72 2 3]%Q 0.9 "C" "major").
Proof.
  apply (proj1 (choir_harmony_voices [Note 60 0 1; Note 72 2 3]%Q 0.9 "C" "major")).
  now left.
Defined.

End Choir.

Section Dispatch.
Import MusicTheory Enhancer Styles.
Context {G : Type} {rs : RandomState G}.

Lemma afro_loop_length (notes : list note) (intensity : Q) :
  forall (i : nat) (g : G),
    (length notes <= length (afro_loop i notes intensity g).1)%nat.
Proof.
  induction notes as [|n rest IH]; intros i g; [cbn; lia|].
  cbn [afro_loop].
  match goal with |- context [afro_emit ?nn n rest intensity g] =>
    destruct (afro_emit_head nn n rest intensity g) as (tl & g1 & ->) end.
  specialize (IH (S i) g1).
  destruct (afro_loop (S i) rest intensity g1) as [others g2].
  cbn [fst] in *. rewrite length_app. cbn [length]. lia.
Qed.

(** No enhancement mode drops a note: whatever the mode name, the output
    has at least as many notes as the input, and none for an empty input; a
    mode name other than the five known ones is served by the smooth
    enhancer. *)
Theorem enhance_melody_keeps_notes (notes : list note) (mode : string)
    (intensity : Q) (root scale : string) (g : G) :
  (notes = [] -> enhance_melody notes mode intensity root scale g = ([], g))
  /\ (length notes <= length (enhance_melody notes mode intensity root scale g).1)%nat
  /\ (~ In mode ["bounce"; "trap_run"; "afro_vibe"; "choir"] ->
      enhance_melody notes mode intensity root scale g
      = (smooth_melody notes intensity root scale, g)).
Proof.
  split; [intros ->; reflexivity|].
  destruct notes as [|n ns]; [split; [cbn; lia | reflexivity]|].
  unfold enhance_melody.
  assert (Hsmooth : length (smooth_melody (n :: ns) intensity root scale)
                    = length (n :: ns)).
  { destruct (smooth_melody_times (n :: ns) intensity root scale) as [Hs _].
    rewrite <- (length_map start), Hs. apply length_map. }
  destruct (String.eqb mode "smooth") eqn:E1.
  { cbn [fst]. split; [lia | reflexivity]. }
  destruct (String.eqb mode "bounce") eqn:E2.
  { apply String.eqb_eq in E2. subst mode. cbn [fst]. split.
    - unfold bounce_melody. rewrite length_map. lia.
    - intros Hn. exfalso. apply Hn. now left. }
  destruct (String.eqb mode "trap_run") eqn:E3.
  { apply String.eqb_eq in E3. subst mode. split.
    - unfold trap_run_melody. destruct (length (n :: ns) <? 2)%nat; [cbn [fst]; lia|].
      destruct (trap_loop_spec intensity root scale (n :: ns) g) as [Hsub _].
      apply sublist_length in Hsub. exact Hsub.
    - intros Hn. exfalso. apply Hn. right. now left. }
  destruct (String.eqb mode "afro_vibe") eqn:E4.
  { apply String.eqb_eq in E4. subst mode. split.
    - unfold afro_vibe_melody.
      pose proof (afro_loop_length (n :: ns) intensity 0 g) as Hlen.
      destruct (afro_loop 0 (n :: ns) intensity g) as [afro_notes g'].
      cbn [fst] in *. now rewrite sort_by_start_length.
    - intros Hn. exfalso. apply Hn. right. right. now left. }
  destruct (String.eqb mode "choir") eqn:E5.
  { apply String.eqb_eq in E5. subst mode. cbn [fst]. split.
    - rewrite choir_harmony_length. nia.
    - intros Hn. exfalso. apply Hn. right. right. right. now left. }
  cbn [fst]. split; [lia | reflexivity].
Qed.

End Dispatch.

Lemma enhance_melody_keeps_notes_witness :
  Styles.enhance_melody (rs := constant_draws 0 0)
    [Note 60 0 1; Note 72 2 3]%Q "lofi" 0.5 "C" "minor" tt
  = (Enhancer.smooth_melody [Note 60 0 1; Note 72 2 3]%Q 0.5 "C" "minor", tt).
Proof.
  apply (proj2 (proj2 (enhance_melody_keeps_notes (rs := constant_draws 0 0)
                         [Note 60 0 1; Note 72 2 3]%Q "lofi" 0.5%Q "C" "minor" tt))).
  cbn [In]. intros [H|[H|[H|[H|[]]]]]; discriminate H.
Defined.

(** ** melody_enhancer.py: [add_ornamentation] *)

Section Ornaments.
Import MusicTheory Styles.
Context {G : Type} {rs : RandomState G}.





End Ornaments.


(** ** rhythm_processor.py: the range of [detect_tempo] *)














(** ** rhythm_processor.py: what [quantize_rhythm] always returns *)

Section QuantizeShape.
Import Rhythm.
Context {G : Type} {rs : RandomState G}.






End QuantizeShape.


(** ** rhythm_processor.py: [add_triplet_feel] and [adjust_note_lengths] *)

Section Articulation.
Import Rhythm Groove.







End Articulation.

(** ** audio_processing.py: [analyze_melody] *)

Section Analysis.
Import Audio.

Lemma fold_max_spec (xs : list Z) (x : Z) :
  x <= fold_left Z.max xs x /\ Forall (fun y => y <= fold_left Z.max xs x) xs.
Proof.
  revert x; induction xs as [|z zs IH]; intros x; cbn [fold_left].
  - split; [lia | constructor].
  - destruct (IH (Z.max x z)) as [H1 H2]. split; [lia|].
    constructor; [lia | exact H2].
Qed.

Lemma fold_min_spec (xs : list Z) (x : Z) :
  fold_left Z.min xs x <= x /\ Forall (fun y => fold_left Z.min xs x <= y) xs.
Proof.
  revert x; induction xs as [|z zs IH]; intros x; cbn [fold_left].
  - split; [lia | constructor].
  - destruct (IH (Z.min x z)) as [H1 H2]. split; [lia|].
    constructor; [lia | exact H2].
Qed.

Lemma abs_intervals_bound (lo hi : Z) (midis : list Z) :
  Forall (fun m => lo <= m <= hi) midis ->
  Forall (fun d => 0 <= d <= hi - lo) (abs_intervals midis).
Proof.
  induction 1 as [|a l Ha Hl IH]; [constructor|].
  destruct l as [|b l']; [constructor|].
  cbn [abs_intervals]. constructor; [|exact IH].
  apply Forall_cons_1 in Hl as [Hb _]. lia.
Qed.

Lemma sum_bound (r : Z) (l : list Z) :
  Forall (fun d => 0 <= d <= r) l ->
  forall a, a <= fold_left Z.add l a <= a + Z.of_nat (length l) * r.
Proof.
  induction 1 as [|d l Hd _ IH]; intros a; cbn [fold_left length]; [lia|].
  specialize (IH (a + d)). nia.
Qed.

Lemma np_mean_bound (r : Z) (l : list Z) :
  l <> [] -> Forall (fun d => 0 <= d <= r) l ->
  (0 <= np_mean l)%Q /\ (np_mean l <= inject_Z r)%Q.
Proof.
  intros Hne Hall. unfold np_mean.
  pose proof (sum_bound r l Hall 0) as [Hlo Hhi].
  assert (Hlen : 0 < Z.of_nat (length l)) by (destruct l; [congruence | cbn; lia]).
  assert (Hq : (0 < inject_Z (Z.of_nat (length l)))%Q).
  { change 0%Q with (inject_Z 0). now rewrite <- Zlt_Qlt. }
  split.
  - apply Qle_shift_div_l; [exact Hq|]. rewrite Qmult_0_l.
    change 0%Q with (inject_Z 0). now rewrite <- Zle_Qle.
  - apply Qle_shift_div_r; [exact Hq|].
    rewrite <- inject_Z_mult, <- Zle_Qle. lia.
Qed.

(** The analysis of a melody: the empty melody gives zeros and no lowest or
    highest note; otherwise every pitch lies between the reported lowest and
    highest notes, whose distance is the reported range, no note ends after
    the reported duration, and the average interval between consecutive notes
    is between 0 and the range. *)
Theorem analyze_melody_bounds (notes : list note) :
  num_notes (analyze_melody notes) = length notes
  /\ (notes = [] ->
      analyze_melody notes
      = Build_analysis 0 0.0%Q 0 0.0%Q None None)
  /\ (notes <> [] ->
      exists lo hi,
        lowest_note (analyze_melody notes) = Some lo
        /\ highest_note (analyze_melody notes) = Some hi
        /\ pitch_range (analyze_melody notes) = hi - lo
        /\ Forall (fun n => lo <= midi n <= hi
                            /\ (end_ n <= duration (analyze_melody notes))%Q) notes
        /\ (0 <= avg_interval (analyze_melody notes))%Q
        /\ (avg_interval (analyze_melody notes)
            <= inject_Z (pitch_range (analyze_melody notes)))%Q).
Proof.
  split; [destruct notes; reflexivity|]. split; [intros ->; reflexivity|].
  intros Hne. destruct notes as [|n ns]; [congruence|]. clear Hne.
  cbn [analyze_melody lowest_note highest_note pitch_range duration avg_interval].
  destruct (fold_max_spec (map midi ns) (midi n)) as [Hmax0 Hmax].
  destruct (fold_min_spec (map midi ns) (midi n)) as [Hmin0 Hmin].
  set (hi := fold_left Z.max (map midi ns) (midi n)) in *.
  set (lo := fold_left Z.min (map midi ns) (midi n)) in *.
  assert (Hrange : Forall (fun m => lo <= m <= hi) (map midi (n :: ns))).
  { cbn [map]. constructor; [lia|].
    rewrite Forall_forall in Hmax, Hmin. apply Forall_forall. intros m Hm.
    specialize (Hmax m Hm). specialize (Hmin m Hm). cbn beta in *. lia. }
  exists lo, hi. split; [reflexivity|]. split; [reflexivity|]. split; [reflexivity|].
  split; [|].
  - apply Forall_forall. intros m Hm. split.
    + rewrite Forall_forall in Hrange. apply (Hrange (midi m)).
      apply list_elem_of_fmap. exists m. split; [reflexivity | exact Hm].
    + apply max_of_ge. change (end_ n :: map end_ ns) with (map end_ (n :: ns)).
      apply in_map, list_elem_of_In, Hm.
  - pose proof (abs_intervals_bound lo hi _ Hrange) as Hiv.
    destruct (abs_intervals (map midi (n :: ns))) as [|d ds] eqn:E.
    + split; [discriminate|]. change 0%Q with (inject_Z 0). rewrite <- Zle_Qle. lia.
    + apply np_mean_bound; [discriminate | exact Hiv].
Qed.

Lemma analyze_melody_bounds_witness :
  exists lo hi,
    lowest_note (analyze_melody [Note 60 0 1; Note 67 1 2; Note 55 2 2.5]%Q) = Some lo
    /\ highest_note (analyze_melody [Note 60 0 1; Note 67 1 2; Note 55 2 2.5]%Q) = Some hi
    /\ pitch_range (analyze_melody [Note 60 0 1; Note 67 1 2; Note 55 2 2.5]%Q) = hi - lo
    /\ Forall (fun n => lo <= midi n <= hi
          /\ (end_ n <= duration (analyze_melody [Note 60 0 1; Note 67 1 2; Note 55 2 2.5]))%Q)
         [Note 60 0 1; Note 67 1 2; Note 55 2 2.5]%Q
    /\ (0 <= avg_interval (analyze_melody [Note 60 0 1; Note 67 1 2; Note 55 2 2.5]))%Q
    /\ (avg_interval (analyze_melody [Note 60 0 1; Note 67 1 2; Note 55 2 2.5])
        <= inject_Z (pitch_range (analyze_melody [Note 60 0 1; Note 67 1 2; Note 55 2 2.5])))%Q.
Proof.
  apply (proj2 (proj2 (analyze_melody_bounds [Note 60 0 1; Note 67 1 2; Note 55 2 2.5]%Q))).
  discriminate.
Defined.

End Analysis.

(** ** audio_processing.py: [extract_melody_notes] after pitch tracking *)

Section Segmentation.
Import MusicTheory Keys Audio.
Variable hz_to_midi : Q -> Q.

Lemma segment_from_unvoiced (frames : list (Q * option Q)) :
  unvoiced hz_to_midi frames -> segment_from hz_to_midi None frames = ([], None).
Proof.
  induction 1 as [|[t f] rest Hf _ IH]; [reflexivity|].
  cbn [segment_from]. cbn [snd] in Hf. rewrite Hf. exact IH.
Qed.

Lemma raw_notes_long (frames : list (Q * option Q)) :
  Forall (fun n => (0.08 <= end_ n - start n)%Q) (raw_notes_of hz_to_midi frames).
Proof.
  unfold raw_notes_of. destruct (segment_from hz_to_midi None frames) as [closed open].
  apply Forall_forall. intros n Hn. apply list_elem_of_filter in Hn as [Hn _].
  apply Is_true_true in Hn. apply Qle_bool_iff in Hn. exact Hn.
Qed.

Lemma extract_melody_notes_eq (frames : list (Q * option Q))
    (scale root : option string) (auto_detect_key : bool) first rest :
  raw_notes_of hz_to_midi frames = first :: rest ->
  exists r s,
    extract_melody_notes hz_to_midi frames scale root auto_detect_key
    = (map (fun n => Note (quantize_to_scale (midi n) r s)
                          (start n - start first) (end_ n - start first))
           (first :: rest), r, s)
    /\ (forall r0, root = Some r0 -> r = r0)
    /\ (forall s0, scale = Some s0 -> s = s0)
    /\ (auto_detect_key = false -> root = None -> r = "C"%string)
    /\ (auto_detect_key = false -> scale = None -> s = "minor"%string).
Proof.
  intros Hraw. unfold extract_melody_notes. rewrite Hraw.
  set (key := if auto_detect_key && _ then _ else _).
  assert (Hkey :
    (forall r0, root = Some r0 -> key.1 = r0)
    /\ (forall s0, scale = Some s0 -> key.2 = s0)
    /\ (auto_detect_key = false -> root = None -> key.1 = "C"%string)
    /\ (auto_detect_key = false -> scale = None -> key.2 = "minor"%string)).
  { subst key. destruct (detect_key (first :: rest)) as [dr ds].
    destruct auto_detect_key, root, scale; cbn;
      (split; [intros ? [= <-] || discriminate; reflexivity|]);
      (split; [intros ? [= <-] || discriminate; reflexivity|]);
      (split; [intros; reflexivity || discriminate|]);
      intros; reflexivity || discriminate. }
  destruct key as [r s]. exists r, s. split; [|exact Hkey].
  rewrite map_map. reflexivity.
Qed.

(** Whatever the pitch track: when no frame is voiced the answer is no note
    and the key C minor; otherwise every returned note lasts at least 80 ms
    and sounds a pitch of the returned key, the first one starts at time 0,
    and a root or scale given by the caller is the one returned. *)
Theorem extract_melody_notes_in_key (frames : list (Q * option Q))
    (scale root : option string) (auto_detect_key : bool)
    (notes : list note) (r s : string) :
  extract_melody_notes hz_to_midi frames scale root auto_detect_key = (notes, r, s) ->
  (unvoiced hz_to_midi frames -> notes = [] /\ r = "C"%string /\ s = "minor"%string)
  /\ Forall (fun n => (0.08 <= end_ n - start n)%Q
                      /\ In ((midi n - root_offset r) mod 12) (target_scale s)) notes
  /\ match notes with
     | [] => r = "C"%string /\ s = "minor"%string
     | n :: _ =>
         (start n == 0)%Q
         /\ (forall r0, root = Some r0 -> r = r0)
         /\ (forall s0, scale = Some s0 -> s = s0)
     end.
Proof.
  intros Hex. split.
  { intros Hun. unfold extract_melody_notes, raw_notes_of in Hex.
    rewrite (segment_from_unvoiced _ Hun) in Hex. cbn in Hex.
    injection Hex as <- <- <-. split; [reflexivity|]. split; reflexivity. }
  pose proof (raw_notes_long frames) as Hlong.
  destruct (raw_notes_of hz_to_midi frames) as [|first rest] eqn:Hraw.
  { unfold extract_melody_notes in Hex. rewrite Hraw in Hex.
    injection Hex as <- <- <-. split; [constructor|]. split; reflexivity. }
  destruct (extract_melody_notes_eq frames scale root auto_detect_key _ _ Hraw)
    as (r' & s' & Heq & Hr & Hs & _).
  rewrite Heq in Hex.
  assert (Hall : Forall (fun n => (0.08 <= end_ n - start n)%Q
                   /\ In ((midi n - root_offset r') mod 12) (target_scale s'))
            (map (fun n => Note (quantize_to_scale (midi n) r' s')
                                (start n - start first) (end_ n - start first))
                 (first :: rest))).
  { apply Forall_forall. intros n Hn. apply list_elem_of_fmap in Hn as (m & -> & Hm).
    rewrite Forall_forall in Hlong. specialize (Hlong m Hm). cbn [start end_ midi].
    split; [cbn beta in Hlong; lra|]. apply quantize_in_key. }
  injection Hex as <- <- <-. split; [exact Hall|].
  cbn [map start]. split; [lra|]. split; [exact Hr | exact Hs].
Qed.

End Segmentation.

Lemma extract_melody_notes_in_key_witness :
  Forall (fun n => (0.08 <= end_ n - start n)%Q
                   /\ In ((midi n - MusicTheory.root_offset "C") mod 12)
                         (MusicTheory.target_scale "major"))
    [Note 60 0.00 0.20; Note 62 0.20 0.30; Note 64 0.40 0.50]%Q.
Proof.
  refine (proj1 (proj2 (extract_melody_notes_in_key (fun f => f)
           [(0, None); (0.1, Some 60); (0.2, Some 60); (0.3, Some 62);
            (0.4, None); (0.5, Some 64); (0.6, Some 64.2)]%Q
           None None true _ "C" "major" _))).
  vm_compute. reflexivity.
Defined.

Section Monophonic.
Import MusicTheory Keys Audio.
Variable hz_to_midi : Q -> Q.

Lemma StronglySorted_snoc {A} (R : A -> A -> Prop) (l : list A) (x : A) :
  StronglySorted R l -> Forall (fun y => R y x) l -> StronglySorted R (l ++ [x]).
Proof.
  induction 1 as [|a l Hl IH Ha]; intros Hx; cbn [app].
  - constructor; constructor.
  - apply Forall_cons_1 in Hx as [Hax Hx]. constructor; [exact (IH Hx)|].
    apply Forall_app. split; [exact Ha | constructor; [exact Hax | constructor]].
Qed.

Lemma StronglySorted_filter_keep {A} (R : A -> A -> Prop) (P : A -> Prop)
    `{!forall x, Decision (P x)} (l : list A) :
  StronglySorted R l -> StronglySorted R (filter P l).
Proof.
  induction 1 as [|a l Hl IH Ha]; [constructor|].
  rewrite filter_cons. destruct (decide (P a)); [|exact IH].
  constructor; [exact IH|]. apply Forall_forall. intros y Hy.
  apply list_elem_of_filter in Hy as [_ Hy]. rewrite Forall_forall in Ha. exact (Ha y Hy).
Qed.

Lemma StronglySorted_map_keep {A B} (R : A -> A -> Prop) (S : B -> B -> Prop)
    (f : A -> B) (l : list A) :
  (forall a b, R a b -> S (f a) (f b)) ->
  StronglySorted R l -> StronglySorted S (map f l).
Proof.
  intros Hf. induction 1 as [|a l Hl IH Ha]; cbn [map]; [constructor|].
  constructor; [exact IH|]. apply Forall_forall. intros y Hy.
  apply list_elem_of_fmap in Hy as (x & -> & Hx). apply Hf.
  rewrite Forall_forall in Ha. exact (Ha x Hx).
Qed.

Lemma last_time_cons (lb t : Q) (rest : list (Q * option Q)) (f : option Q) :
  default lb (fst <$> last ((t, f) :: rest)) = default t (fst <$> last rest).
Proof.
  rewrite last_cons. destruct (last rest); reflexivity.
Qed.

(** The invariant of the segmentation loop on a track whose times do not
    decrease and are at least [lb]: [lo] is the start of the open note, or
    [lb] when none is open. *)
Lemma segment_from_chain (frames : list (Q * option Q)) :
  forall (current_note : option note) (lb : Q) closed open,
    StronglySorted Qle (map fst frames) ->
    Forall (fun t => (lb <= t)%Q) (map fst frames) ->
    match current_note with Some c => (start c <= lb)%Q | None => True end ->
    segment_from hz_to_midi current_note frames = (closed, open) ->
    let lo := match current_note with Some c => start c | None => lb end in
    Forall (fun n => (lo <= start n)%Q /\ (start n <= end_ n)%Q) closed
    /\ StronglySorted precedes closed
    /\ match open with
       | Some o =>
           (lo <= start o)%Q
           /\ (start o <= default lb (fst <$> last frames))%Q
           /\ Forall (fun n => (end_ n <= start o)%Q) closed
       | None => True
       end.
Proof.
  induction frames as [|[t f] rest IH]; intros cur lb closed open Hsorted Hlb Hcur Hseg lo.
  - cbn [segment_from] in Hseg. injection Hseg as <- <-.
    split; [constructor|]. split; [constructor|].
    destruct cur as [c|]; [|exact I]. subst lo. cbn [last fmap option_fmap option_map default].
    split; [lra|]. split; [exact Hcur | constructor].
  - cbn [map fst] in Hsorted, Hlb.
    apply StronglySorted_inv in Hsorted as [Hsorted Ht].
    apply Forall_cons_1 in Hlb as [Hlbt _].
    rewrite last_time_cons.
    assert (Hlo : (lo <= t)%Q) by (subst lo; destruct cur; cbn beta iota in *; lra).
    cbn [segment_from] in Hseg.
    destruct (frame_midi hz_to_midi f) as [m|].
    + destruct cur as [c|].
      * destruct (m =? midi c).
        -- apply (IH _ t) in Hseg; [|exact Hsorted|exact Ht|cbn [start]; exact Hlo].
           exact Hseg.
        -- destruct (segment_from hz_to_midi (Some (Note m t t)) rest) as [closed' open'] eqn:E.
           injection Hseg as <- <-.
           apply (IH _ t) in E; [|exact Hsorted|exact Ht|cbn [start]; lra].
           cbn [start] in E. destruct E as (Hc & Hs & Ho).
           assert (Hpre : Forall (fun n => (t <= start n)%Q) closed').
           { eapply Forall_impl; [exact Hc|]. intros n [H1 _]. exact H1. }
           split.
           { constructor; [cbn [start end_]; subst lo; split; [lra | exact Hlo]|].
             eapply Forall_impl; [exact Hc|]. intros n [H1 H2]. cbn beta. split; lra. }
           split; [constructor; [exact Hs | exact Hpre]|].
           destruct open' as [o|]; [|exact I]. destruct Ho as (H1 & H2 & H3).
           split; [lra|]. split; [exact H2|]. constructor; [cbn [end_]; exact H1 | exact H3].
      * apply (IH _ t) in Hseg; [|exact Hsorted|exact Ht|cbn [start]; lra].
        cbn [start] in Hseg. destruct Hseg as (Hc & Hs & Ho).
        split.
        { eapply Forall_impl; [exact Hc|]. intros n [H1 H2]. cbn beta. split; lra. }
        split; [exact Hs|]. destruct open as [o|]; [|exact I].
        destruct Ho as (H1 & H2 & H3). split; [lra|]. split; [exact H2 | exact H3].
    + destruct cur as [c|].
      * destruct (segment_from hz_to_midi None rest) as [closed' open'] eqn:E.
        injection Hseg as <- <-.
        apply (IH _ t) in E; [|exact Hsorted|exact Ht|exact I].
        cbn beta iota zeta in E. destruct E as (Hc & Hs & Ho).
        assert (Hpre : Forall (fun n => (t <= start n)%Q) closed').
        { eapply Forall_impl; [exact Hc|]. intros n [H1 _]. exact H1. }
        split.
        { constructor; [cbn [start end_]; subst lo; split; [lra | exact Hlo]|].
          eapply Forall_impl; [exact Hc|]. intros n [H1 H2]. cbn beta. split; lra. }
        split; [constructor; [exact Hs | exact Hpre]|].
        destruct open' as [o|]; [|exact I]. destruct Ho as (H1 & H2 & H3).
        split; [lra|]. split; [exact H2|]. constructor; [cbn [end_]; exact H1 | exact H3].
      * apply (IH _ t) in Hseg; [|exact Hsorted|exact Ht|exact I].
        cbn beta iota zeta in Hseg. destruct Hseg as (Hc & Hs & Ho).
        split.
        { eapply Forall_impl; [exact Hc|]. intros n [H1 H2]. cbn beta. split; lra. }
        split; [exact Hs|]. destruct open as [o|]; [|exact I].
        destruct Ho as (H1 & H2 & H3). split; [lra|]. split; [exact H2 | exact H3].
Qed.

Lemma raw_notes_chain (frames : list (Q * option Q)) :
  Sorted Qle (map fst frames) ->
  StronglySorted precedes (raw_notes_of hz_to_midi frames).
Proof.
  intros Hsorted.
  apply Sorted_StronglySorted in Hsorted; [|intros x y z; apply Qle_trans].
  unfold raw_notes_of.
  destruct (segment_from hz_to_midi None frames) as [closed open] eqn:E.
  apply StronglySorted_filter_keep.
  destruct frames as [|[t0 f0] rest].
  { cbn in E. injection E as <- <-. constructor. }
  apply (segment_from_chain _ None t0) in E; [|exact Hsorted| |exact I].
  2:{ cbn [map fst]. apply StronglySorted_inv in Hsorted as [_ Ht].
      constructor; [lra | exact Ht]. }
  destruct E as (Hc & Hs & Ho). destruct open as [o|]; [|exact Hs].
  destruct Ho as (_ & _ & H3).
  apply StronglySorted_snoc; [exact Hs|]. exact H3.
Qed.

(** On a pitch track whose frame times do not decrease, the melody returned
    is monophonic: every note is over when any later note begins, and every
    note starts at a time that is not negative and ends after it starts. *)
Theorem extract_melody_notes_monophonic (frames : list (Q * option Q))
    (scale root : option string) (auto_detect_key : bool) :
  Sorted Qle (map fst frames) ->
  StronglySorted precedes
    (extract_melody_notes hz_to_midi frames scale root auto_detect_key).1.1
  /\ Forall (fun n => (0 <= start n)%Q /\ (start n < end_ n)%Q)
       (extract_melody_notes hz_to_midi frames scale root auto_detect_key).1.1.
Proof.
  intros Hsorted. pose proof (raw_notes_chain frames Hsorted) as Hchain.
  pose proof (raw_notes_long hz_to_midi frames) as Hlong.
  destruct (raw_notes_of hz_to_midi frames) as [|first rest] eqn:Hraw.
  { unfold extract_melody_notes. rewrite Hraw. cbn [fst]. split; constructor. }
  destruct (extract_melody_notes_eq hz_to_midi frames scale root auto_detect_key _ _ Hraw)
    as (r & s & -> & _). cbn [fst]. split.
  - apply (StronglySorted_map_keep precedes); [|exact Hchain].
    intros a b Hab. unfold precedes in *. cbn [start end_]. lra.
  - apply Forall_forall. intros n Hn. apply list_elem_of_fmap in Hn as (m & -> & Hm).
    cbn [start end_].
    assert (Hm' : (0.08 <= end_ m - start m)%Q).
    { rewrite Forall_forall in Hlong. exact (Hlong m Hm). }
    split; [|lra].
    apply StronglySorted_inv in Hchain as [_ Hfirst].
    apply elem_of_cons in Hm as [->|Hm]; [lra|].
    rewrite Forall_forall in Hfirst. specialize (Hfirst m Hm). unfold precedes in Hfirst.
    apply Forall_cons_1 in Hlong as [Hf _]. lra.
Qed.

End Monophonic.

Lemma extract_melody_notes_monophonic_witness :
  StronglySorted precedes
    [Note 60 0.00 0.20; Note 62 0.20 0.30; Note 64 0.40 0.50]%Q.
Proof.
  refine (proj1 (extract_melody_notes_monophonic (fun f => f)
           [(0, None); (0.1, Some 60); (0.2, Some 60); (0.3, Some 62);
            (0.4, None); (0.5, Some 64); (0.6, Some 64.2)]%Q
           None None true _)).
  repeat constructor; vm_compute; discriminate.
Defined.

(** ** melody_generator.py: what [notes_to_midi] writes, and when *)

Section MidiFile.
Import Generator.

Lemma check_data_byte_spec (v : Z) : check_data_byte v = true <-> data_byte v.
Proof. unfold check_data_byte, data_byte. lia. Qed.

Lemma note_events_pairs notes tps :
  Forall (fun n => data_byte (midi n)) notes ->
  forall last_tick, exists evs,
    note_events notes tps last_tick = Ok evs
    /\ map untimed evs
       = flat_map (fun n => [note_on (midi n) 90 0; note_off (midi n) 0 0]) notes
    /\ Forall delta_ok evs.
Proof.
  induction 1 as [|n ns Hn _ IH]; intros last_tick; cbn [note_events].
  - exists []. split; [reflexivity|]. split; [reflexivity | constructor].
  - apply check_data_byte_spec in Hn. rewrite Hn.
    destruct (IH (Py.round (start n * tps)
                  + Z.max 1 (Py.round (end_ n * tps) - Py.round (start n * tps))))
      as (evs & -> & Hmap & Hok).
    eexists. split; [reflexivity|]. cbn [map untimed flat_map app]. rewrite Hmap.
    split; [reflexivity|].
    constructor; [cbn [delta_ok time]; lia|]. constructor; [cbn [delta_ok]; lia | exact Hok].
Qed.

Lemma note_events_bad notes tps :
  Exists (fun n => ~ data_byte (midi n)) notes ->
  forall last_tick, exists msg, note_events notes tps last_tick = Raise (ValueError msg).
Proof.
  induction notes as [|n ns IH]; intros Hbad last_tick; [inversion Hbad|].
  cbn [note_events]. destruct (check_data_byte (midi n)) eqn:Hn.
  - apply Exists_cons in Hbad as [Hbad|Hbad].
    + apply check_data_byte_spec in Hn. contradiction.
    + destruct (IH Hbad (Py.round (start n * tps)
                  + Z.max 1 (Py.round (end_ n * tps) - Py.round (start n * tps))))
        as (msg & ->).
      exists msg. reflexivity.
  - eexists. reflexivity.
Qed.

(** With a tempo that a tempo message can hold: when every pitch is a MIDI
    data byte (0..127) the file written at [out_path] has 480 ticks per beat
    and one track, the tempo message followed, for each note in the order of
    the start times, by a note-on of velocity 90 and the note-off of the same
    pitch at least one tick later; when some pitch is not, a [ValueError] is
    raised and no file is written. *)
Theorem notes_to_midi_outcome (notes : list note) (out_path : string)
    (tempo_bpm : Q) (fs : filesystem) :
  ~ (tempo_bpm == 0)%Q ->
  check_tempo (bpm2tempo tempo_bpm) = true ->
  (Forall (fun n => data_byte (midi n)) notes ->
   exists evs,
     notes_to_midi notes out_path tempo_bpm fs
     = (Ok tt, <[out_path := MidiFile 480 (set_tempo (bpm2tempo tempo_bpm) 0 :: evs)]> fs)
     /\ map untimed evs
        = flat_map (fun n => [note_on (midi n) 90 0; note_off (midi n) 0 0])
            (sort_by_start notes)
     /\ Forall delta_ok evs)
  /\ (Exists (fun n => ~ data_byte (midi n)) notes ->
      exists msg,
        notes_to_midi notes out_path tempo_bpm fs = (Raise (ValueError msg), fs)).
Proof.
  intros Hbpm Htempo. unfold notes_to_midi, midi_track.
  destruct (Qeq_bool tempo_bpm 0) eqn:Hz; [apply Qeq_bool_iff in Hz; contradiction|].
  rewrite Htempo. cbn zeta. split.
  - intros Hall.
    assert (Hsorted : Forall (fun n => data_byte (midi n)) (sort_by_start notes)).
    { apply Forall_forall. intros n Hn. rewrite sort_by_start_perm in Hn.
      rewrite Forall_forall in Hall. exact (Hall n Hn). }
    destruct (note_events_pairs _
                (inject_Z DEFAULT_TICKS_PER_BEAT / (60.0 / tempo_bpm))%Q Hsorted 0)
      as (evs & -> & Hmap & Hok).
    exists evs. split; [reflexivity|]. split; [exact Hmap | exact Hok].
  - intros Hbad.
    assert (Hsorted : Exists (fun n => ~ data_byte (midi n)) (sort_by_start notes)).
    { apply Exists_exists in Hbad as (n & Hn & Hb). apply Exists_exists.
      exists n. split; [|exact Hb]. rewrite sort_by_start_perm. exact Hn. }
    destruct (note_events_bad _
                (inject_Z DEFAULT_TICKS_PER_BEAT / (60.0 / tempo_bpm))%Q Hsorted 0)
      as (msg & ->).
    exists msg. reflexivity.
Qed.

Lemma notes_to_midi_outcome_witness :
  exists evs,
    notes_to_midi [Note 62 0.5 1; Note 60 0 0.5]%Q "out.mid" 120 ∅
    = (Ok tt, <["out.mid" := MidiFile 480 (set_tempo (bpm2tempo 120) 0 :: evs)]> ∅)
    /\ map untimed evs
       = flat_map (fun n => [note_on (midi n) 90 0; note_off (midi n) 0 0])
           (sort_by_start [Note 62 0.5 1; Note 60 0 0.5]%Q)
    /\ Forall delta_ok evs.
Proof.
  apply (proj1 (notes_to_midi_outcome [Note 62 0.5 1; Note 60 0 0.5]%Q "out.mid" 120 ∅
                  ltac:(vm_compute; discriminate) ltac:(vm_compute; reflexivity))).
  repeat constructor; vm_compute; discriminate.
Defined.

End MidiFile.

(** ** melody_generator.py: [generate_adsr_envelope] *)

Section AdsrEnvelope.
Import Generator Envelope.

Lemma clip_index_range (n i : Z) : 0 <= n -> 0 <= clip_index n i <= n.
Proof. unfold clip_index. destruct (i <? 0); lia. Qed.

Lemma clip_index_from_end (n r : Z) : 0 < r <= n -> clip_index n (- r) = n - r.
Proof.
  intros H. unfold clip_index. destruct (- r <? 0) eqn:E; [lia|].
  apply Z.ltb_ge in E. lia.
Qed.

Lemma np_linspace_length (a b : Q) (num : Z) :
  length (np_linspace a b num) = Z.to_nat num.
Proof.
  unfold np_linspace. destruct (num =? 1) eqn:E.
  - apply Z.eqb_eq in E. subst num. reflexivity.
  - cbn zeta. now rewrite length_map, length_seq.
Qed.

Lemma interpolate_unit (a b f : Q) :
  unit_range a -> unit_range b -> unit_range f -> unit_range (a + f * (b - a)).
Proof.
  unfold unit_range. intros [Ha0 Ha1] [Hb0 Hb1] [Hf0 Hf1].
  assert (H1 : (0 <= f * b)%Q) by (apply Qmult_le_0_compat; assumption).
  assert (H2 : (0 <= (1 - f) * a)%Q) by (apply Qmult_le_0_compat; lra).
  assert (H3 : (0 <= f * (1 - b))%Q) by (apply Qmult_le_0_compat; lra).
  assert (H4 : (0 <= (1 - f) * (1 - a))%Q) by (apply Qmult_le_0_compat; lra).
  split; lra.
Qed.

Lemma np_linspace_unit (a b : Q) (num : Z) :
  unit_range a -> unit_range b -> Forall unit_range (np_linspace a b num).
Proof.
  intros Ha Hb. unfold np_linspace. destruct (num =? 1) eqn:E.
  { constructor; [exact Ha | constructor]. }
  cbn zeta. apply Forall_forall. intros x Hx.
  apply list_elem_of_fmap in Hx as (i & -> & Hi).
  apply list_elem_of_In, in_seq in Hi. apply Z.eqb_neq in E.
  assert (Hd : (0 < inject_Z (num - 1))%Q).
  { change 0%Q with (inject_Z 0). rewrite <- Zlt_Qlt. lia. }
  assert (Hf : unit_range (inject_Z (Z.of_nat i) / inject_Z (num - 1))).
  { split.
    - apply Qle_shift_div_l; [exact Hd|]. rewrite Qmult_0_l.
      change 0%Q with (inject_Z 0). rewrite <- Zle_Qle. lia.
    - apply Qle_shift_div_r; [exact Hd|]. rewrite Qmult_1_l. rewrite <- Zle_Qle. lia. }
  pose proof (interpolate_unit a b _ Ha Hb Hf) as [H0 H1].
  assert (Heq : (a + inject_Z (Z.of_nat i) * ((b - a) / inject_Z (num - 1))
                 == a + inject_Z (Z.of_nat i) / inject_Z (num - 1) * (b - a))%Q).
  { field. intros Hz. rewrite Hz in Hd. lra. }
  split; rewrite Heq; assumption.
Qed.

Lemma set_slice_keeps (P : Q -> Prop) (arr : list Q) (lo hi : Z) (vals : list Q) :
  Forall P arr -> Forall P vals ->
  Z.of_nat (length vals)
  = clip_index (Z.of_nat (length arr)) hi - clip_index (Z.of_nat (length arr)) lo ->
  exists arr', set_slice arr lo hi vals = Ok arr'
               /\ length arr' = length arr /\ Forall P arr'.
Proof.
  intros Harr Hvals Hlen. unfold set_slice.
  pose proof (clip_index_range (Z.of_nat (length arr)) lo ltac:(lia)) as Ha.
  pose proof (clip_index_range (Z.of_nat (length arr)) hi ltac:(lia)) as Hb.
  set (a := clip_index _ lo) in *. set (b := clip_index _ hi) in *.
  replace (Z.to_nat b - Z.to_nat a)%nat with (length vals) by lia.
  rewrite Nat.eqb_refl. eexists. split; [reflexivity|]. split.
  - rewrite !length_app, length_take, length_drop. lia.
  - apply Forall_app. split; [apply Forall_take; exact Harr|].
    apply Forall_app. split; [exact Hvals | apply Forall_drop; exact Harr].
Qed.

Lemma fill_slice_keeps (P : Q -> Prop) (arr : list Q) (lo hi : Z) (v : Q) :
  Forall P arr -> P v ->
  length (fill_slice arr lo hi v) = length arr /\ Forall P (fill_slice arr lo hi v).
Proof.
  intros Harr Hv. unfold fill_slice.
  pose proof (clip_index_range (Z.of_nat (length arr)) lo ltac:(lia)) as Ha.
  pose proof (clip_index_range (Z.of_nat (length arr)) hi ltac:(lia)) as Hb.
  set (a := clip_index _ lo) in *. set (b := clip_index _ hi) in *. split.
  - rewrite !length_app, length_take, length_replicate, length_drop. lia.
  - apply Forall_app. split; [apply Forall_take; exact Harr|].
    apply Forall_app. split; [|apply Forall_drop; exact Harr].
    apply Forall_replicate. exact Hv.
Qed.

(** For a sustain level between 0 and 1, an attack time and a sample rate
    that are not negative and any number [length >= 0] of samples, the
    envelope is built (no slice assignment fails), has exactly [length]
    samples, and every sample lies between 0 and 1: the envelope never
    amplifies the tone it multiplies. *)
Theorem generate_adsr_envelope_unit (length sr : Z)
    (attack decay sustain release : Q) :
  0 <= length -> 0 <= sr -> (0 <= attack)%Q -> unit_range sustain ->
  exists envelope,
    generate_adsr_envelope length sr attack decay sustain release = Ok envelope
    /\ Z.of_nat (List.length envelope) = length
    /\ Forall unit_range envelope.
Proof.
  intros Hlen Hsr Hattack Hsustain. unfold generate_adsr_envelope.
  destruct (length <? 0) eqn:E; [lia|]. clear E. cbn zeta.
  assert (HA : 0 <= Py.int (attack * inject_Z sr)).
  { apply int_bounds. apply Qmult_le_0_compat; [exact Hattack|].
    change 0%Q with (inject_Z 0). rewrite <- Zle_Qle. exact Hsr. }
  set (A := Py.int (attack * inject_Z sr)) in *.
  set (D := Py.int (decay * inject_Z sr)).
  set (R := Py.int (release * inject_Z sr)).
  assert (H01 : unit_range 0.0%Q) by (split; lra).
  assert (H11 : unit_range 1.0%Q) by (split; lra).
  (* the array of ones *)
  assert (H0 : Z.of_nat (List.length (replicate (Z.to_nat length) 1%Q)) = length
               /\ Forall unit_range (replicate (Z.to_nat length) 1%Q)).
  { rewrite length_replicate. split; [lia|]. apply Forall_replicate. split; lra. }
  revert H0. generalize (replicate (Z.to_nat length) 1%Q). intros e0 [L0 U0].
  (* attack *)
  assert (H1 : exists e1,
    (if (0 <? A) && (A <? length)
     then set_slice e0 0 A (np_linspace 0.0 1.0 A) else Ok e0) = Ok e1
    /\ Z.of_nat (List.length e1) = length /\ Forall unit_range e1).
  { destruct ((0 <? A) && (A <? length)) eqn:C.
    - destruct (set_slice_keeps unit_range e0 0 A (np_linspace 0.0 1.0 A) U0)
        as (e1 & He1 & Hl1 & Hu1).
      + apply np_linspace_unit; assumption.
      + rewrite np_linspace_length, L0, !clip_index_inside by lia. lia.
      + exists e1. split; [exact He1|]. split; [lia | exact Hu1].
    - exists e0. split; [reflexivity|]. split; assumption. }
  destruct H1 as (e1 & -> & L1 & U1). cbn [bind].
  (* decay *)
  assert (H2 : exists e2,
    (if (0 <? D) && (A + D <? length)
     then set_slice e1 A (A + D) (np_linspace 1.0 sustain D) else Ok e1) = Ok e2
    /\ Z.of_nat (List.length e2) = length /\ Forall unit_range e2).
  { destruct ((0 <? D) && (A + D <? length)) eqn:C.
    - destruct (set_slice_keeps unit_range e1 A (A + D) (np_linspace 1.0 sustain D) U1)
        as (e2 & He2 & Hl2 & Hu2).
      + apply np_linspace_unit; assumption.
      + rewrite np_linspace_length, L1, !clip_index_inside by lia. lia.
      + exists e2. split; [exact He2|]. split; [lia | exact Hu2].
    - exists e1. split; [reflexivity|]. split; assumption. }
  destruct H2 as (e2 & -> & L2 & U2). cbn [bind].
  (* sustain *)
  set (e3 := if A + D <? Z.max (A + D) (length - R)
             then fill_slice e2 (A + D) (Z.max (A + D) (length - R)) sustain else e2).
  assert (H3 : Z.of_nat (List.length e3) = length /\ Forall unit_range e3).
  { subst e3. destruct (A + D <? Z.max (A + D) (length - R)); [|split; assumption].
    destruct (fill_slice_keeps unit_range e2 (A + D) (Z.max (A + D) (length - R))
                sustain U2 Hsustain) as [Hl Hu].
    split; [lia | exact Hu]. }
  destruct H3 as [L3 U3]. clearbody e3.
  (* release *)
  destruct ((0 <? R) && (R <? length)) eqn:C.
  - destruct (set_slice_keeps unit_range e3 (- R) length (np_linspace sustain 0.0 R) U3)
      as (e4 & He4 & Hl4 & Hu4).
    + apply np_linspace_unit; assumption.
    + rewrite np_linspace_length, L3, clip_index_from_end, clip_index_inside by lia. lia.
    + exists e4. split; [exact He4|]. split; [lia | exact Hu4].
  - exists e3. split; [reflexivity|]. split; assumption.
Qed.

Lemma generate_adsr_envelope_unit_witness :
  exists envelope,
    generate_adsr_envelope 4410 44100 0.01 0.05 0.7 0.15 = Ok envelope
    /\ Z.of_nat (List.length envelope) = 4410
    /\ Forall unit_range envelope.
Proof.
  apply (generate_adsr_envelope_unit 4410 44100 0.01 0.05 0.7 0.15);
    [lia | lia | vm_compute; discriminate | split; vm_compute; discriminate].
Defined.

End AdsrEnvelope.

(** ** melody_enhancer.py: the pitches of [smooth_melody] *)

Section SmoothPitches.
Import MusicTheory Enhancer.

Lemma smooth_from_pitches (rest : list note) (intensity : Q) (root scale : string) :
  forall prev_midi,
    Forall2 (fun n m => midi m = midi n \/ in_key root scale (midi m))
      rest (smooth_from prev_midi rest intensity root scale).
Proof.
  induction rest as [|n ns IH]; intros prev_midi; cbn [smooth_from]; constructor.
  - cbn [midi]. destruct (5 <? Z.abs (midi n - prev_midi)); [right | left; reflexivity].
    apply quantize_in_key.
  - apply IH.
Qed.

Lemma smooth_from_stepwise (rest : list note) (intensity : Q) (root scale : string) :
  forall prev_midi,
    Forall (fun d => d <= 5) (Audio.abs_intervals (prev_midi :: map midi rest)) ->
    smooth_from prev_midi rest intensity root scale = rest.
Proof.
  induction rest as [|n ns IH]; intros prev_midi Hstep; [reflexivity|].
  cbn [map Audio.abs_intervals] in Hstep. apply Forall_cons_1 in Hstep as [Hn Hns].
  cbn [smooth_from]. destruct (5 <? Z.abs (midi n - prev_midi)) eqn:E.
  - apply Z.ltb_lt in E. lia.
  - rewrite (IH _ Hns). destruct n; reflexivity.
Qed.

(** Smoothing leaves every note its pitch or moves it to a pitch of the
    key, and a melody that has no jump of more than 5 semitones is returned
    as it is, whatever the intensity. *)
Theorem smooth_melody_pitches (notes : list note) (intensity : Q)
    (root scale : string) :
  Forall2 (fun n m => midi m = midi n \/ in_key root scale (midi m))
    notes (smooth_melody notes intensity root scale)
  /\ (stepwise notes -> smooth_melody notes intensity root scale = notes).
Proof.
  unfold smooth_melody. destruct (length notes <? 2)%nat.
  { split; [|reflexivity]. apply Forall2_same_length_lookup_2.
    - reflexivity.
    - intros i n m Hn Hm. left. congruence. }
  destruct notes as [|first rest]; [split; [constructor | reflexivity]|]. split.
  - constructor; [left; reflexivity | apply smooth_from_pitches].
  - intros Hstep. unfold stepwise in Hstep. cbn [map] in Hstep.
    rewrite (smooth_from_stepwise _ _ _ _ _ Hstep). reflexivity.
Qed.

Lemma smooth_melody_pitches_witness :
  smooth_melody [Note 60 0 1; Note 64 1 2; Note 62 2 3]%Q 0.7 "C" "minor"
  = [Note 60 0 1; Note 64 1 2; Note 62 2 3]%Q.
Proof.
  apply (proj2 (smooth_melody_pitches [Note 60 0 1; Note 64 1 2; Note 62 2 3]%Q
                  0.7 "C" "minor")).
  repeat constructor; vm_compute; discriminate.
Defined.

End SmoothPitches.

(** ** melody_generator.py: [notes_to_wav] with a sample rate that is not
    positive *)

Section WavRate.
Import Generator.
Context {G : Type}.
Variable midi_to_freq : Z -> Q.
Variable synthesize : instrument_config -> Q -> Q -> Z -> G -> nat -> Q.
Variable after_synthesis : instrument_config -> G -> G.

(** With a sample rate that is zero or negative no rendering succeeds: an
    exception is raised and the file system is left as it was, or with an
    empty file at [out_path] when the rate is refused after the file was
    opened.  With the rate 0 and at least one note the exception is the
    [ZeroDivisionError] of the first note's duration, and no file is
    opened. *)
Theorem notes_to_wav_bad_rate (notes : list note) (out_path : string) (sr : Z)
    (instrument : string) (g : G) (fs : filesystem) :
  sr <= 0 ->
  exists e g' fs',
    notes_to_wav midi_to_freq synthesize after_synthesis notes out_path sr
      instrument g fs = (Raise e, g', fs')
    /\ (fs' = fs \/ fs' = <[out_path := EmptyFile]> fs)
    /\ (sr = 0 -> notes <> [] -> e = ZeroDivisionError /\ g' = g /\ fs' = fs).
Proof.
  intros Hsr. unfold notes_to_wav. destruct notes as [|n ns].
  { do 3 eexists. split; [reflexivity|]. split; [left; reflexivity|].
    intros _ Hne. congruence. }
  destruct (Z.eq_dec sr 0) as [->|Hnz].
  - assert (Hint : Py.int (inject_Z 0 * (Py.max_of (end_ n) (map end_ ns) + 0.5)) = 0).
    { rewrite (int_comp _ (inject_Z 0)); [apply int_inject_Z|].
      change (inject_Z 0) with 0%Q. ring. }
    rewrite Hint. cbn [Z.ltb Z.compare Z.to_nat replicate mix_notes Z.eqb].
    do 3 eexists. split; [reflexivity|]. split; [left; reflexivity|].
    intros _ _. split; [reflexivity|]. split; reflexivity.
  - destruct (_ <? 0).
    { do 3 eexists. split; [reflexivity|]. split; [left; reflexivity|]. lia. }
    destruct (mix_notes _ _ _ _ _ _ _ _) as [[audio|e] g1].
    2:{ do 3 eexists. split; [reflexivity|]. split; [left; reflexivity|]. lia. }
    destruct (map Qabs audio) as [|a rest].
    { do 3 eexists. split; [reflexivity|]. split; [left; reflexivity|]. lia. }
    destruct (sr <=? 0) eqn:E; [|apply Z.leb_gt in E; lia].
    do 3 eexists. split; [reflexivity|]. split; [right; reflexivity|]. lia.
Qed.

End WavRate.

Lemma notes_to_wav_bad_rate_witness :
  exists e g' fs',
    Generator.notes_to_wav flat_pitch square_wave no_draw
      [Note 60 0 1]%Q "out.wav" 0 "piano" tt ∅ = (Raise e, g', fs')
    /\ (fs' = ∅ \/ fs' = <["out.wav" := Generator.EmptyFile]> ∅)
    /\ (0 = 0 -> [Note 60 0 1]%Q <> [] -> e = ZeroDivisionError /\ g' = tt /\ fs' = ∅).
Proof.
  apply (notes_to_wav_bad_rate flat_pitch square_wave no_draw
           [Note 60 0 1]%Q "out.wav" 0 "piano" tt ∅).
  lia.
Defined.
